(** * A shallow embedding of [sator.py] (eolicneb/sator)

    Python strings are sequences of code points: a string is a [list Z].
    Python objects that are shared and mutated ([Word] instances, whose
    [_inverted] attribute is written by the [Inverted] descriptor) live in
    an explicit heap, a [list Word] addressed by object reference ([nat]).
    Python dicts keep insertion order and are association lists; a Python
    [set] of strings is a duplicate-free list.  Exceptions are the
    constructors of [exn]; a Python generator is a [stream]: the items it
    yields, followed by the exception that ended it, if any. *)

From Stdlib Require Import String Ascii.
From stdpp Require Import base list.
From Stdlib Require Import ZArith Lia.

Open Scope Z_scope.

Definition char := Z.
Definition str := list char.

(** ** Exceptions and generators *)

Inductive exn := AssertionError | AttributeError | IndexError | NameError | RecursionError.

Inductive res (A : Type) := Ok (a : A) | Err (e : exn).
Arguments Ok {A} a.
Arguments Err {A} e.

(** A run of a generator: what it yielded, then how it ended. *)
Definition stream (A : Type) := (list A * option exn)%type.

(** ** Strings *)

Fixpoint str_eqb (s t : str) : bool :=
  match s, t with
  | [], [] => true
  | a :: s', b :: t' => Z.eqb a b && str_eqb s' t'
  | _, _ => false
  end.

(** Python's [<] on [str]: lexicographic on code points. *)
Fixpoint str_ltb (s t : str) : bool :=
  match s, t with
  | _, [] => false
  | [], _ :: _ => true
  | a :: s', b :: t' => if Z.ltb a b then true else if Z.eqb a b then str_ltb s' t' else false
  end.

(** [s[a:b]] for [0 <= a, b]. *)
Definition slice {A} (l : list A) (a b : nat) : list A := firstn (b - a) (skipn a l).

(** [str.replace(x, y)] for one-code-point [x] and [y]. *)
Definition replace1 (x y : char) (s : str) : str :=
  map (fun c => if Z.eqb c x then y else c) s.

(** The pairs of [deaccent]: á é í ó ú ü î ö Á. *)
Definition deaccent_pairs : list (char * char) :=
  [(225, 97); (233, 101); (237, 105); (243, 111); (250, 117);
   (252, 117); (238, 105); (246, 111); (193, 97)].

(** [deaccent(word)]: the replacements applied in order. *)
Definition deaccent (word : str) : str :=
  fold_left (fun w xy => replace1 (fst xy) (snd xy) w) deaccent_pairs word.

(** [invert(word)] *)
Definition invert (word : str) : str := rev word.

(** [sorted(words)] on a list of [str]: insertion sort, stable. *)
Fixpoint insert_sorted (s : str) (l : list str) : list str :=
  match l with
  | [] => [s]
  | t :: l' => if str_ltb t s then t :: insert_sorted s l' else s :: l
  end.

Fixpoint sorted_strs (l : list str) : list str :=
  match l with
  | [] => []
  | s :: l' => insert_sorted s (sorted_strs l')
  end.

(** ** Dicts: association lists in insertion order *)

Section Dict.
Context {K V : Type} (keqb : K -> K -> bool).

(** [d.get(k)] *)
Fixpoint dict_get (d : list (K * V)) (k : K) : option V :=
  match d with
  | [] => None
  | (k', v) :: d' => if keqb k' k then Some v else dict_get d' k
  end.

(** [d[k] = v]: an existing key keeps its place. *)
Fixpoint dict_set (d : list (K * V)) (k : K) (v : V) : list (K * V) :=
  match d with
  | [] => [(k, v)]
  | (k', v') :: d' => if keqb k' k then (k', v) :: d' else (k', v') :: dict_set d' k v
  end.
End Dict.

(** ** Words on the heap *)

(** A [Word] object: [original], [deaccented] and the [_inverted] slot
    behind the [Inverted] descriptor. *)
Record Word := mkWord { original : str; deaccented : str; inverted : option nat }.

Abbreviation heap := (list Word).

Definition set_inverted_slot (v : option nat) (w : Word) : Word :=
  mkWord (original w) (deaccented w) v.

(** [Word.is_symmetrical] *)
Definition is_symmetrical (w : Word) : bool :=
  str_eqb (deaccented w) (invert (deaccented w)).

(** Truth value of a [Word] (or [None]): [Word] defines [__len__], so a
    word is true iff its deaccented form is non-empty. *)
Definition truthy (h : heap) (o : option nat) : bool :=
  match o with
  | None => false
  | Some r => match h !! r with
              | Some w => negb (Nat.eqb (length (deaccented w)) 0)
              | None => false
              end
  end.

(** [obj.inverted] and [obj.deaccented] for a reference. *)
Definition inv_of (h : heap) (r : nat) : option nat :=
  match h !! r with Some w => inverted w | None => None end.

Definition deacc_of (h : heap) (r : nat) : option str := option_map deaccented (h !! r).

(** [Inverted.__set__(obj, value)]: [obj._inverted = value]; then, if
    [value.inverted is None], [value.inverted = obj], whose own
    [__set__] stops at once since [obj.inverted] is now set. *)
Definition set_inverted (h : heap) (obj : nat) (value : option nat) : heap :=
  let h1 := alter (set_inverted_slot value) obj h in
  match value with
  | None => h1
  | Some v =>
      match h1 !! v with
      | Some wv =>
          match inverted wv with
          | None => alter (set_inverted_slot (Some obj)) v h1
          | Some _ => h1
          end
      | None => h1
      end
  end.

(** [Word(original)]: allocates a new object; a symmetrical word is its
    own inverse ([self.inverted = self]). *)
Definition new_word (h : heap) (s : str) : heap * nat :=
  let r := length h in
  let d := deaccent s in
  let w := mkWord s d None in
  if is_symmetrical w then (h ++ [mkWord s d (Some r)], r) else (h ++ [w], r).

(** ** [WordsList] *)

Definition lp_key := (char * Z)%type.

Definition lp_key_eqb (a b : lp_key) : bool := Z.eqb (fst a) (fst b) && Z.eqb (snd a) (snd b).

Record WordsList := mkWordsList {
  wl_length : option nat;
  wl_heap : heap;
  words : list (str * nat);          (** [self.words.content] *)
  l_and_p : list (lp_key * list str) (** [self.l_and_p] *)
}.

(** [set.add(s)] *)
Definition set_add (l : list str) (s : str) : list str :=
  if existsb (str_eqb s) l then l else l ++ [s].

(** One iteration of [register_word_letter_and_position]. *)
Definition lp_add (lp : list (lp_key * list str)) (k : lp_key) (d : str) :=
  match dict_get lp_key_eqb lp k with
  | None => dict_set lp_key_eqb lp k (set_add [] d)
  | Some s => dict_set lp_key_eqb lp k (set_add s d)
  end.

Fixpoint register_from (lp : list (lp_key * list str)) (d : str) (pos : nat) (letters : str) :=
  match letters with
  | [] => lp
  | letter :: rest => register_from (lp_add lp (letter, Z.of_nat pos) d) d (S pos) rest
  end.

(** [register_word_letter_and_position(word)], on [word.deaccented]. *)
Definition register_word_letter_and_position lp (d : str) := register_from lp d 0 d.

(** One iteration of the loop of [WordsList.setup]. *)
Definition setup_step (st : WordsList) (word_str : str) : WordsList :=
  let (h1, r) := new_word (wl_heap st) word_str in
  let d := deaccent word_str in
  let ws1 := dict_set str_eqb (words st) d r in
  let lp1 := register_word_letter_and_position (l_and_p st) d in
  let inv := dict_get str_eqb ws1 (invert d) in
  let h2 := if truthy h1 inv then set_inverted h1 r inv else h1 in
  mkWordsList (wl_length st) h2 ws1 lp1.

Definition setup (st : WordsList) (ws : list str) : WordsList := fold_left setup_step ws st.

(** [not length]: [None] and [0] are false. *)
Definition len_falsy (length : option nat) : bool :=
  match length with None => true | Some n => Nat.eqb n 0 end.

(** [self._words] *)
Definition filtered_words (ws : list str) (length : option nat) : list str :=
  List.filter (fun w => len_falsy length || Nat.eqb (List.length w) (match length with Some n => n | None => 0%nat end))
         (sorted_strs ws).

(** [WordsList(words, length)] *)
Definition WordsList_init (ws : list str) (length : option nat) : WordsList :=
  setup (mkWordsList length [] [] []) (filtered_words ws length).

(** [WordsList.iter_for_length(length)]: the dict's values in insertion
    order, skipping [len(word) != length or word.inverted is None]. *)
Definition iter_for_length (st : WordsList) (length : nat) : list nat :=
  List.filter (fun r => match wl_heap st !! r with
                   | Some w => Nat.eqb (List.length (deaccented w)) length
                               && bool_decide (inverted w <> None)
                   | None => false
                   end)
         (map snd (words st)).

(** The loop of [word_for_letters_in_position] over the items of the set. *)
Fixpoint wfl_loop (st : WordsList) (letters : str) (position : nat) (length : option nat)
    (items : list str) : stream nat :=
  match items with
  | [] => ([], None)
  | item :: rest =>
      if negb (len_falsy length)
         && negb (Nat.eqb (List.length item) (match length with Some n => n | None => 0%nat end))
      then wfl_loop st letters position length rest
      else
        match dict_get str_eqb (words st) item with
        | None => ([], Some AttributeError)            (** [None.deaccented] *)
        | Some c =>
            match wl_heap st !! c with
            | None => ([], Some AttributeError)
            | Some cw =>
                if negb (str_eqb (slice (deaccented cw) position (position + List.length letters)) letters)
                then wfl_loop st letters position length rest
                else let (ys, e) := wfl_loop st letters position length rest in (c :: ys, e)
            end
        end
  end.

(** [WordsList.word_for_letters_in_position(letters, position, length)] *)
Definition word_for_letters_in_position (st : WordsList) (letters : str) (position : nat)
    (length : option nat) : stream nat :=
  match letters with
  | [] => ([], Some IndexError)                          (** [letters[0]] *)
  | l0 :: _ =>
      let items := match dict_get lp_key_eqb (l_and_p st) (l0, Z.of_nat position) with
                   | Some s => s | None => [] end in
      wfl_loop st letters position length items
  end.

(** ** [Sator] grids *)

(** A [Sator] object.  [sid] is the object's identity: [Sator] defines
    [__hash__] but no [__eq__], so two grids are equal only when they are
    the same object. *)
Record Sator := mkSator { sid : list nat; slength : nat; content : list (option nat) }.

(** [Sator(length)] *)
Definition Sator_new (i : list nat) (length : nat) : Sator := mkSator i length (repeat None length).

(** Python's index normalisation for [l[i] = x] on a list of length [n]. *)
Definition py_index (n : nat) (i : Z) : option nat :=
  if (0 <=? i) && (i <? Z.of_nat n) then Some (Z.to_nat i)
  else if (- Z.of_nat n <=? i) && (i <? 0) then Some (Z.to_nat (i + Z.of_nat n))
  else None.

(** [l[i] = x]; [None] is an [IndexError]. *)
Definition py_setitem {A} (l : list A) (i : Z) (x : A) : option (list A) :=
  match py_index (List.length l) i with
  | Some k => Some (<[k := x]> l)
  | None => None
  end.

(** [Sator.__setitem__(pos, word)] *)
Definition sator_setitem (h : heap) (s : Sator) (pos : Z) (word : option nat) : res Sator :=
  match word with
  | None => Err AttributeError                          (** [None.inverted] *)
  | Some r =>
      match h !! r with
      | None => Err AttributeError
      | Some w =>
          if negb (truthy h (inverted w)) then Err AssertionError
          else
            match py_setitem (content s) pos (Some r) with
            | None => Err IndexError
            | Some c1 =>
                if negb (Z.eqb (2 * pos + 1) (Z.of_nat (slength s)))
                then match py_setitem c1 (Z.of_nat (slength s) - pos - 1) (inverted w) with
                     | None => Err IndexError
                     | Some c2 => Ok (mkSator (sid s) (slength s) c2)
                     end
                else Ok (mkSator (sid s) (slength s) c1)
            end
      end
  end.

(** [Sator.copy_with_word_in_pos(word, pos)]; [i] is the new object. *)
Definition copy_with_word_in_pos (h : heap) (s : Sator) (word : option nat) (pos : Z) (i : list nat) : res Sator :=
  sator_setitem h (mkSator i (slength s) (content s)) pos word.

(** ** [Satorter] *)

Record Satorter := mkSatorter {
  sw : WordsList;       (** [self.words] *)
  near_miss : nat;      (** [self.near_miss] *)
  s_len : nat           (** [self.length] *)
}.

(** [Satorter.middle_pos] *)
Definition middle_pos (length : nat) : nat := ((length + 1) / 2 - 1)%nat.

(** [required = "".join(w.deaccented[pos-1] for w in new_sator[pos:self.length - pos])] *)
Fixpoint required_letters (h : heap) (pos : nat) (rows : list (option nat)) : res str :=
  match rows with
  | [] => Ok []
  | None :: _ => Err AttributeError
  | Some r :: rest =>
      match h !! r with
      | None => Err AttributeError
      | Some w =>
          match nth_error (deaccented w) (pos - 1) with
          | None => Err IndexError
          | Some c => match required_letters h pos rest with
                      | Ok s => Ok (c :: s)
                      | Err e => Err e
                      end
          end
      end
  end.

Definition required (h : heap) (s : Sator) (pos length : nat) : res str :=
  required_letters h pos (slice (content s) pos (length - pos)).

(** The [for running_word in ...] loop of [iter_sator_for_central]:
    [rec idx c] runs the inner call on the [idx]-th candidate [c]; the
    result is what was yielded, the exception if any, and [no_words]. *)
Fixpoint candidate_loop (h : heap) (rec : nat -> nat -> stream Sator) (cs : list nat) (idx : nat)
    (no_words : bool) : list Sator * option exn * bool :=
  match cs with
  | [] => ([], None, no_words)
  | c :: cs' =>
      if negb (truthy h (inv_of h c)) then candidate_loop h rec cs' (Datatypes.S idx) no_words
      else
        let (ys, e) := rec idx c in
        match e with
        | Some _ => (ys, e, false)
        | None => let '(ys', e', nw) := candidate_loop h rec cs' (Datatypes.S idx) false in (ys ++ ys', e', nw)
        end
  end.

(** [Satorter.iter_sator_for_central(running_word, pos, sator)].
    [frames] is the number of nested calls that still fit under Python's
    recursion limit; [path] names the [Sator] object the call creates. *)
Fixpoint iter_sator_for_central (S : Satorter) (frames : nat) (path : list nat)
    (running_word : nat) (pos : nat) (sator : Sator) {struct pos} : stream Sator :=
  match frames with
  | O => ([], Some RecursionError)
  | Datatypes.S frames' =>
  let h := wl_heap (sw S) in
  let inv := inv_of h running_word in
  match copy_with_word_in_pos h sator inv (Z.of_nat pos) path with
  | Err e => ([], Some e)
  | Ok new_sator =>
      match pos with
      | O => ([new_sator], None)
      | Datatypes.S pos' =>
          match required h new_sator pos (s_len S) with
          | Err e => ([], Some e)
          | Ok req =>
              let (cands, ce) := word_for_letters_in_position (sw S) req pos (Some (s_len S)) in
              let '(ys, e, no_words) :=
                candidate_loop h (fun idx c => iter_sator_for_central S frames' (idx :: path) c pos' new_sator)
                  cands 0%nat true in
              match e with
              | Some _ => (ys, e)
              | None =>
                  match ce with
                  | Some _ => (ys, ce)
                  | None =>
                      if no_words && Nat.leb pos (near_miss S) then (ys ++ [new_sator], None)
                      else (ys, None)
                  end
              end
          end
      end
  end
  end.

(** [if result in self.results: continue; self.results.add(result); yield result]:
    membership of a [Sator], having no [__eq__], is identity. *)
Fixpoint dedup (ys : list Sator) (results : list (list nat)) : list Sator * list (list nat) :=
  match ys with
  | [] => ([], results)
  | y :: ys' =>
      if existsb (fun i => bool_decide (i = sid y)) results then dedup ys' results
      else let (out, r') := dedup ys' (sid y :: results) in (y :: out, r')
  end.

(** The seed loop of [Satorter.generator].  On an exception the handler
    runs [print(format_exc())] and then [print("...", sator)]: [sator]
    is no local of [generator], so it is looked up among the module's
    globals; [sator_bound] says whether such a global exists (the
    [__main__] block binds one once its loop has received a grid). *)
Fixpoint gen_loop (S : Satorter) (frames : nat) (sator_bound : bool) (seeds : list nat) (i : nat)
    (results : list (list nat)) : stream Sator :=
  match seeds with
  | [] => ([], None)
  | w :: ws =>
      let sym := match wl_heap (sw S) !! w with Some x => is_symmetrical x | None => false end in
      if Nat.odd (s_len S) && negb sym then gen_loop S frames sator_bound ws (Datatypes.S i) results
      else
        let (ys, e) := iter_sator_for_central S frames [i] w (middle_pos (s_len S)) (Sator_new [] (s_len S)) in
        let (out, results') := dedup ys results in
        match e with
        | Some _ =>
            if sator_bound
            then let (out', e') := gen_loop S frames sator_bound ws (Datatypes.S i) results' in (out ++ out', e')
            else (out, Some NameError)
        | None => let (out', e') := gen_loop S frames sator_bound ws (Datatypes.S i) results' in (out ++ out', e')
        end
  end.

(** [Satorter.generator()] on a fresh [Satorter] ([self.results = set()]). *)
Definition generator (S : Satorter) (frames : nat) (sator_bound : bool) : stream Sator :=
  gen_loop S frames sator_bound (iter_for_length (sw S) (s_len S)) 0 [].

(** Python's default recursion limit. *)
Definition default_frames : nat := 1000.

(** ** Reading grids *)

(** The deaccented rows of a grid ([None] for an empty slot). *)
Definition rows (h : heap) (g : Sator) : list (option str) :=
  map (fun o => match o with
                | Some r => option_map deaccented (h !! r)
                | None => None
                end) (content g).

(** Column [pos] read top to bottom, when every row has a letter there. *)
Definition column (h : heap) (g : Sator) (pos : nat) : option str :=
  mapM (fun o => match o with Some d => nth_error d pos | None => None end) (rows h g).

(** Row [pos] of the grid. *)
Definition row (h : heap) (g : Sator) (pos : nat) : option str :=
  match rows h g !! pos with Some (Some d) => Some d | _ => None end.

(** Literal ASCII strings. *)
Definition lit (x : String.string) : str :=
  map (fun a => Z.of_nat (Ascii.nat_of_ascii a)) (String.list_ascii_of_string x).

(** ** Sample word lists *)

Definition sator_words : list str := map lit ["sator"; "arepo"; "tenet"; "opera"; "rotas"]%string.
Definition pair_words : list str := map lit ["ab"; "ba"]%string.
Definition quad_words : list str := map lit ["abcd"; "dcba"; "pdaq"; "qadp"]%string.

Definition aaaaa_cdedc : list str := map lit ["aaaaa"; "cdedc"]%string.

(** The content of a grid as the spec compares grids: the distinct
    deaccented forms of its non-empty slots, sorted. *)
Definition nodup_strs (l : list str) : list str :=
  fold_right (fun s acc => if existsb (str_eqb s) acc then acc else s :: acc) [] l.

Definition grid_words (h : heap) (g : Sator) : list str :=
  sorted_strs (nodup_strs (omap (fun o => o ≫= deacc_of h) (content g))).

(** ** The normalizer, one code point at a time *)

Definition deaccent_step (c : char) (xy : char * char) : char := if Z.eqb c (fst xy) then snd xy else c.

Definition deaccent_char (c : char) : char := fold_left deaccent_step deaccent_pairs c.

(** The nine code points [deaccent] rewrites. *)
Definition accented : list char := map fst deaccent_pairs.

(** ** [Satorter.__init__] *)

(** [Satorter(words, length, near_miss)]: [self.length = words.length or
    length], then [assert self.length]. *)
Definition Satorter_init (words : WordsList) (length : option nat) (near_miss : nat) : res Satorter :=
  let l := if len_falsy (wl_length words) then length else wl_length words in
  match l with
  | Some n => if Nat.eqb n 0 then Err AssertionError else Ok (mkSatorter words near_miss n)
  | None => Err AssertionError
  end.

(** ** [Sator.__hash__] *)

(** [sorted] on a list of [Word]s, which compares them with [Word.__lt__]
    (on [original]); insertion sort, stable like Python's. *)
Fixpoint insert_word (w : Word) (l : list Word) : list Word :=
  match l with
  | [] => [w]
  | t :: l' => if str_ltb (original t) (original w) then t :: insert_word w l' else w :: l
  end.

Fixpoint sort_words (l : list Word) : list Word :=
  match l with
  | [] => []
  | w :: l' => insert_word w (sort_words l')
  end.

(** [[w for w in self.content if w]] *)
Definition truthy_words (h : heap) (c : list (option nat)) : list Word :=
  omap (fun o => if truthy h o then o ≫= fun r => h !! r else None) c.

(** [Sator.__hash__]: [hash(tuple(sorted(...)))].  The hash of a tuple is
    a function of the hashes of its items, and [Word.__hash__] is
    [hash(self.original)]: the grid's hash is a function of this list. *)
Definition sator_hash_key (h : heap) (g : Sator) : list str :=
  map original (sort_words (truthy_words h (content g))).

(** * Proofs *)

(** ** Normalizer *)

Lemma fold_replace_map (pairs : list (char * char)) (s : str) :
  fold_left (fun w xy => replace1 (fst xy) (snd xy) w) pairs s
  = map (fun c => fold_left deaccent_step pairs c) s.
Proof.
  revert s; induction pairs as [|xy pairs IH]; intros s; simpl.
  - symmetry; apply map_id.
  - rewrite IH; unfold replace1; rewrite map_map; reflexivity.
Qed.

Lemma deaccent_map (s : str) : deaccent s = map deaccent_char s.
Proof. apply fold_replace_map. Qed.

Lemma fold_step_notin (pairs : list (char * char)) (c : char) :
  ~ In c (map fst pairs) -> fold_left deaccent_step pairs c = c.
Proof.
  revert c; induction pairs as [|xy pairs IH]; intros c Hc; simpl in *; [reflexivity|].
  assert (deaccent_step c xy = c) as ->.
  { unfold deaccent_step; destruct (Z.eqb_spec c (fst xy)) as [e|]; [|reflexivity].
    exfalso; apply Hc; left; symmetry; exact e. }
  apply IH; tauto.
Qed.

Lemma deaccent_char_plain (c : char) : ~ In c accented -> deaccent_char c = c.
Proof. apply fold_step_notin. Qed.

Lemma deaccent_char_accented (c : char) :
  In c accented -> In (deaccent_char c) [97; 101; 105; 111; 117].
Proof. cbn; intros Hc; repeat destruct Hc as [<-|Hc]; vm_compute; intuition. Qed.

Lemma deaccent_char_idem (c : char) : deaccent_char (deaccent_char c) = deaccent_char c.
Proof.
  destruct (in_dec Z.eq_dec c accented) as [Hc|Hc].
  - apply deaccent_char_plain.
    pose proof (deaccent_char_accented c Hc) as Ht.
    remember (deaccent_char c) as t eqn:Et; clear Et.
    cbn in Ht |- *; intros Hin; lia.
  - rewrite (deaccent_char_plain c Hc); apply deaccent_char_plain; exact Hc.
Qed.

(** C8 *)
Theorem deaccent_idempotent_and_cases :
  (forall s : str, deaccent (deaccent s) = deaccent s) /\
  deaccent [193] = lit "a" /\ deaccent (lit "a") = lit "a" /\
  (forall s : str, Forall (fun c => ~ In c accented) s -> deaccent s = s).
Proof.
  split; [|split; [reflexivity|split; [reflexivity|]]].
  - intros s; rewrite !deaccent_map, map_map.
    apply map_ext; apply deaccent_char_idem.
  - intros s Hs; rewrite deaccent_map.
    induction Hs as [|c s Hc Hs IH]; [reflexivity|].
    cbn [map]; rewrite deaccent_char_plain by exact Hc; f_equal; exact IH.
Qed.

Lemma deaccent_length (s : str) : List.length (deaccent s) = List.length s.
Proof. rewrite deaccent_map; apply length_map. Qed.

(** C9 *)
Theorem deaccent_preserves_length_and_positions :
  (forall s : str, List.length (deaccent s) = List.length s) /\
  (forall (ws : list str) (n : nat), n <> 0%nat ->
     filtered_words ws (Some n)
     = List.filter (fun w => Nat.eqb (List.length (deaccent w)) n) (sorted_strs ws)) /\
  (forall (s : str) (i : nat), nth_error (deaccent s) i = option_map deaccent_char (nth_error s i)).
Proof.
  split; [exact deaccent_length|split].
  - intros ws n Hn; unfold filtered_words, len_falsy.
    apply List.filter_ext; intros w.
    rewrite deaccent_length; destruct (Nat.eqb_spec n 0); [contradiction|reflexivity].
  - intros s i; rewrite deaccent_map; apply nth_error_map.
Qed.

Lemma deaccent_preserves_length_and_positions_witness :
  (2 <> 0)%nat /\
  filtered_words pair_words (Some 2%nat)
  = List.filter (fun w => Nat.eqb (List.length (deaccent w)) 2) (sorted_strs pair_words).
Proof.
  split; [lia|].
  apply (proj1 (proj2 deaccent_preserves_length_and_positions)); lia.
Defined.

(** ** Dicts *)

Lemma str_eqb_eq (s t : str) : str_eqb s t = true <-> s = t.
Proof.
  revert t; induction s as [|a s IH]; intros [|b t]; cbn; try (split; congruence).
  rewrite andb_true_iff, Z.eqb_eq, IH; split; [intros [-> ->]; reflexivity|injection 1; auto].
Qed.

Lemma lp_key_eqb_eq (a b : lp_key) : lp_key_eqb a b = true <-> a = b.
Proof.
  destruct a as [a1 a2], b as [b1 b2]; unfold lp_key_eqb; cbn.
  rewrite andb_true_iff, !Z.eqb_eq; split; [intros [-> ->]; reflexivity|injection 1; auto].
Qed.

Section DictLemmas.
Context {K V : Type} (keqb : K -> K -> bool).
Hypothesis keqb_eq : forall a b, keqb a b = true <-> a = b.

Lemma keqb_false a b : keqb a b = false -> a <> b.
Proof. intros H E; apply keqb_eq in E; congruence. Qed.

Lemma dict_get_set (d : list (K * V)) k v k' :
  dict_get keqb (dict_set keqb d k v) k' = if keqb k k' then Some v else dict_get keqb d k'.
Proof.
  induction d as [|[k0 v0] d IH]; cbn.
  - reflexivity.
  - destruct (keqb k0 k) eqn:E0.
    + apply keqb_eq in E0; subst k0; cbn; destruct (keqb k k'); reflexivity.
    + cbn; rewrite IH; destruct (keqb k0 k') eqn:E1, (keqb k k') eqn:E2; try reflexivity.
      apply keqb_eq in E1, E2; subst; apply keqb_false in E0; congruence.
Qed.

Lemma dict_get_set_same (d : list (K * V)) k v : dict_get keqb (dict_set keqb d k v) k = Some v.
Proof. rewrite dict_get_set; destruct (keqb k k) eqn:E; [reflexivity|]. apply keqb_false in E; congruence. Qed.

Lemma dict_get_set_some (d : list (K * V)) k v k' v' :
  dict_get keqb d k' = Some v' -> exists v'', dict_get keqb (dict_set keqb d k v) k' = Some v''.
Proof. intros H; rewrite dict_get_set; destruct (keqb k k'); eauto. Qed.
End DictLemmas.

(** ** The heap *)

Lemma inv_of_alter (h : heap) x w v y :
  h !! x = Some w ->
  inv_of (alter (set_inverted_slot v) x h) y = if decide (x = y) then v else inv_of h y.
Proof.
  intros Hx; unfold inv_of; destruct (decide (x = y)) as [<-|Hne].
  - rewrite list_lookup_alter_eq, Hx; reflexivity.
  - rewrite list_lookup_alter_ne by exact Hne; reflexivity.
Qed.

Lemma deacc_of_alter (h : heap) x v y :
  deacc_of (alter (set_inverted_slot v) x h) y = deacc_of h y.
Proof.
  unfold deacc_of; destruct (decide (x = y)) as [<-|Hne].
  - rewrite list_lookup_alter_eq; destruct (h !! x); reflexivity.
  - rewrite list_lookup_alter_ne by exact Hne; reflexivity.
Qed.

Lemma deacc_of_set_inverted (h : heap) obj v y :
  deacc_of (set_inverted h obj v) y = deacc_of h y.
Proof.
  unfold set_inverted; destruct v as [i|]; [|apply deacc_of_alter].
  destruct (_ !! i) as [wv|]; [destruct (inverted wv)|]; rewrite ?deacc_of_alter; reflexivity.
Qed.

Lemma deacc_of_some (h : heap) r d : deacc_of h r = Some d -> exists w, h !! r = Some w /\ deaccented w = d.
Proof. unfold deacc_of; destruct (h !! r) as [w|]; cbn; [injection 1; eauto|discriminate]. Qed.

(** Every partner is a word whose form is the reversal, and has a partner. *)
Definition partner_ok (h : heap) : Prop :=
  forall r p, inv_of h r = Some p ->
    exists d, deacc_of h r = Some d /\ deacc_of h p = Some (invert d) /\ inv_of h p <> None.

Lemma partner_ok_set_inverted (h : heap) r i d :
  partner_ok h -> deacc_of h r = Some d -> deacc_of h i = Some (invert d) ->
  partner_ok (set_inverted h r (Some i)).
Proof.
  intros Hp Hr Hi.
  destruct (deacc_of_some _ _ _ Hr) as (wr & Hwr & _).
  destruct (deacc_of_some _ _ _ Hi) as (wi & Hwi & _).
  set (h1 := alter (set_inverted_slot (Some i)) r h).
  assert (I1 : forall y, inv_of h1 y = if decide (r = y) then Some i else inv_of h y)
    by (intros y; apply (inv_of_alter h r wr); exact Hwr).
  assert (D1 : forall y, deacc_of h1 y = deacc_of h y) by (intros y; apply deacc_of_alter).
  assert (Hw1 : exists w1, h1 !! i = Some w1).
  { destruct (deacc_of_some h1 i (invert d)) as (w1 & ? & _); [rewrite D1; exact Hi|eauto]. }
  destruct Hw1 as (w1 & Hw1).
  assert (E : set_inverted h r (Some i)
              = match inv_of h1 i with
                | None => alter (set_inverted_slot (Some r)) i h1
                | Some _ => h1 end).
  { unfold set_inverted, inv_of; fold h1; rewrite Hw1; reflexivity. }
  rewrite E; destruct (inv_of h1 i) as [q|] eqn:Hi1.
  - intros x p Hx; rewrite I1 in Hx; destruct (decide (r = x)) as [<-|Hne].
    + injection Hx as <-; exists d; rewrite !D1; repeat split; [exact Hr|exact Hi|congruence].
    + destruct (Hp _ _ Hx) as (d' & H1 & H2 & H3); exists d'; rewrite !D1.
      repeat split; [exact H1|exact H2|]. rewrite I1; destruct (decide (r = p)); [discriminate|exact H3].
  - set (h2 := alter (set_inverted_slot (Some r)) i h1).
    assert (I2 : forall y, inv_of h2 y = if decide (i = y) then Some r else inv_of h1 y)
      by (intros y; apply (inv_of_alter h1 i w1); exact Hw1).
    assert (D2 : forall y, deacc_of h2 y = deacc_of h y)
      by (intros y; unfold h2; rewrite deacc_of_alter; apply D1).
    intros x p Hx; rewrite I2 in Hx; destruct (decide (i = x)) as [<-|Hne].
    + injection Hx as <-; exists (invert d); rewrite !D2; repeat split; [exact Hi| |].
      * unfold invert; rewrite rev_involutive; exact Hr.
      * rewrite I2; destruct (decide (i = r)); [discriminate|]; rewrite I1.
        destruct (decide (r = r)); [discriminate|contradiction].
    + rewrite I1 in Hx; destruct (decide (r = x)) as [<-|Hne'].
      * injection Hx as <-; exists d; rewrite !D2; repeat split; [exact Hr|exact Hi|].
        rewrite I2; destruct (decide (i = i)); [discriminate|contradiction].
      * destruct (Hp _ _ Hx) as (d' & H1 & H2 & H3); exists d'; rewrite !D2.
        repeat split; [exact H1|exact H2|]. rewrite I2, I1.
        destruct (decide (i = p)); [discriminate|]; destruct (decide (r = p)); [discriminate|exact H3].
Qed.

Lemma inv_of_snoc (h : heap) w y :
  inv_of (h ++ [w]) y
  = if decide (y < length h)%nat then inv_of h y
    else if decide (y = length h) then inverted w else None.
Proof.
  unfold inv_of; rewrite lookup_app.
  destruct (h !! y) as [u|] eqn:E.
  - apply lookup_lt_Some in E; destruct (decide (y < length h)%nat); [reflexivity|lia].
  - apply lookup_ge_None in E; destruct (decide (y < length h)%nat); [lia|].
    destruct (decide (y = length h)) as [->|Hne].
    + rewrite Nat.sub_diag; reflexivity.
    + rewrite lookup_ge_None_2; [reflexivity|cbn; lia].
Qed.

Lemma deacc_of_snoc_old (h : heap) w y d : deacc_of h y = Some d -> deacc_of (h ++ [w]) y = Some d.
Proof.
  unfold deacc_of; destruct (h !! y) as [u|] eqn:E; [|discriminate].
  erewrite lookup_app_l_Some by exact E; exact id.
Qed.

Lemma deacc_of_snoc_new (h : heap) w : deacc_of (h ++ [w]) (length h) = Some (deaccented w).
Proof. unfold deacc_of; rewrite list_lookup_middle by reflexivity; reflexivity. Qed.

Lemma deacc_of_lt (h : heap) y d : deacc_of h y = Some d -> (y < length h)%nat.
Proof. intros H; destruct (deacc_of_some _ _ _ H) as (w & Hw & _); eapply lookup_lt_Some; exact Hw. Qed.

Lemma new_word_spec (h : heap) s :
  exists w, new_word h s = (h ++ [w], length h) /\ deaccented w = deaccent s
            /\ (inverted w = None \/ (inverted w = Some (length h) /\ invert (deaccent s) = deaccent s)).
Proof.
  unfold new_word, is_symmetrical; cbn [deaccented].
  destruct (str_eqb (deaccent s) (invert (deaccent s))) eqn:E.
  - apply str_eqb_eq in E; eexists; split; [reflexivity|cbn; split; [reflexivity|right; auto]].
  - eexists; split; [reflexivity|cbn; auto].
Qed.

Lemma partner_ok_snoc (h : heap) w :
  partner_ok h ->
  (inverted w = None \/ (inverted w = Some (length h) /\ invert (deaccented w) = deaccented w)) ->
  partner_ok (h ++ [w]).
Proof.
  intros Hp Hw x p Hx; rewrite inv_of_snoc in Hx.
  destruct (decide (x < length h)%nat) as [Hlt|Hge].
  - destruct (Hp _ _ Hx) as (d & H1 & H2 & H3); exists d.
    split; [apply deacc_of_snoc_old; exact H1|split; [apply deacc_of_snoc_old; exact H2|]].
    rewrite inv_of_snoc; destruct (decide (p < length h)%nat); [exact H3|].
    apply deacc_of_lt in H2; contradiction.
  - destruct (decide (x = length h)) as [->|]; [|discriminate].
    destruct Hw as [Hw|[Hw Hsym]]; rewrite Hw in Hx; [discriminate|injection Hx as <-].
    exists (deaccented w); rewrite deacc_of_snoc_new, Hsym; repeat split.
    rewrite inv_of_snoc, decide_False by lia; rewrite decide_True by reflexivity; congruence.
Qed.

(** ** The positional index *)

Lemma in_set_add (l : list str) d item : In item (set_add l d) -> In item l \/ item = d.
Proof.
  unfold set_add; destruct (existsb _ _); [auto|].
  rewrite in_app_iff; cbn; intuition.
Qed.

Lemma lp_add_get lp k d key items item :
  dict_get lp_key_eqb (lp_add lp k d) key = Some items -> In item items ->
  item = d \/ exists items0, dict_get lp_key_eqb lp key = Some items0 /\ In item items0.
Proof.
  unfold lp_add; destruct (dict_get lp_key_eqb lp k) as [s0|] eqn:E;
    rewrite (dict_get_set _ lp_key_eqb_eq); destruct (lp_key_eqb k key) eqn:Ek;
    try (intros H Hin; right; eauto; fail).
  - apply lp_key_eqb_eq in Ek; subst key; injection 1 as <-; intros Hin.
    destruct (in_set_add _ _ _ Hin); eauto.
  - injection 1 as <-; intros Hin; destruct (in_set_add _ _ _ Hin) as [[]|]; auto.
Qed.

Lemma register_from_get lp d pos letters key items item :
  dict_get lp_key_eqb (register_from lp d pos letters) key = Some items -> In item items ->
  item = d \/ exists items0, dict_get lp_key_eqb lp key = Some items0 /\ In item items0.
Proof.
  revert lp pos; induction letters as [|a letters IH]; intros lp pos H Hin; cbn in H; [right; eauto|].
  destruct (IH _ _ H Hin) as [|(items0 & H0 & Hin0)]; [auto|].
  exact (lp_add_get _ _ _ _ _ _ H0 Hin0).
Qed.

(** ** The invariant of a built [WordsList] *)

Record wl_ok (st : WordsList) : Prop := {
  wl_partner : partner_ok (wl_heap st);
  wl_keys : forall k r, dict_get str_eqb (words st) k = Some r -> deacc_of (wl_heap st) r = Some k;
  wl_index : forall key items item, dict_get lp_key_eqb (l_and_p st) key = Some items ->
               In item items -> exists r, dict_get str_eqb (words st) item = Some r
}.

Lemma wl_ok_setup_step st s : wl_ok st -> wl_ok (setup_step st s).
Proof.
  intros [Hp Hk Hi]; unfold setup_step.
  destruct (new_word_spec (wl_heap st) s) as (w & -> & Hd & Hinv).
  set (h := wl_heap st) in *; set (d := deaccent s) in *.
  set (ws1 := dict_set str_eqb (words st) d (length h)).
  assert (Hk1 : forall k r, dict_get str_eqb ws1 k = Some r -> deacc_of (h ++ [w]) r = Some k).
  { intros k r; unfold ws1; rewrite (dict_get_set _ str_eqb_eq).
    destruct (str_eqb d k) eqn:E.
    - apply str_eqb_eq in E; subst k; injection 1 as <-; rewrite deacc_of_snoc_new; congruence.
    - intros H; apply deacc_of_snoc_old, Hk, H. }
  assert (Hp1 : partner_ok (h ++ [w])).
  { apply partner_ok_snoc; [exact Hp|]. rewrite Hd; exact Hinv. }
  constructor; cbn [wl_heap words l_and_p].
  - destruct (truthy _ _) eqn:Ht; [|exact Hp1].
    destruct (dict_get str_eqb ws1 (invert d)) as [i|] eqn:Ei; [|cbn in Ht; discriminate].
    apply (partner_ok_set_inverted _ _ _ d Hp1).
    + rewrite deacc_of_snoc_new; congruence.
    + apply Hk1, Ei.
  - intros k r Hr; apply Hk1 in Hr.
    destruct (truthy _ _); [rewrite deacc_of_set_inverted|]; exact Hr.
  - intros key items item Hg Hin.
    destruct (register_from_get _ _ _ _ _ _ _ Hg Hin) as [->|(items0 & H0 & Hin0)].
    + exists (length h); apply (dict_get_set_same _ str_eqb_eq).
    + destruct (Hi _ _ _ H0 Hin0) as (r & Hr).
      exact (dict_get_set_some _ str_eqb_eq _ _ _ _ _ Hr).
Qed.

Lemma wl_ok_setup st ws : wl_ok st -> wl_ok (setup st ws).
Proof.
  unfold setup; revert st; induction ws as [|s ws IH]; intros st H; cbn; [exact H|].
  apply IH, wl_ok_setup_step, H.
Qed.

Lemma wl_ok_init ws length : wl_ok (WordsList_init ws length).
Proof.
  apply wl_ok_setup; constructor; cbn.
  - intros r p H; unfold inv_of in H; rewrite lookup_nil in H; discriminate.
  - discriminate.
  - discriminate.
Qed.

(** ** Reverse partners (C5) *)

(** C5: after [WordsList.setup], the reverse partner [p] of an indexed
    word [w] has a partner too, that partner has [w]'s deaccented form,
    and [p]'s deaccented form is the reversal of [w]'s. *)
Theorem setup_reverse_partner_symmetric (ws : list str) (length : option nat) (k : str)
    (r p : nat) (w : Word) :
  dict_get str_eqb (words (WordsList_init ws length)) k = Some r ->
  wl_heap (WordsList_init ws length) !! r = Some w -> inverted w = Some p ->
  exists wp q wq,
    wl_heap (WordsList_init ws length) !! p = Some wp /\ inverted wp = Some q /\
    wl_heap (WordsList_init ws length) !! q = Some wq /\
    deaccented wq = deaccented w /\ invert (deaccented w) = deaccented wp.
Proof.
  destruct (wl_ok_init ws length) as [Hp _ _].
  set (h := wl_heap (WordsList_init ws length)) in *.
  intros _ Hw Hinv.
  assert (Hr : inv_of h r = Some p) by (unfold inv_of; rewrite Hw; exact Hinv).
  destruct (Hp _ _ Hr) as (d & Hd & Hdp & Hq).
  destruct (inv_of h p) as [q|] eqn:Epq; [|contradiction].
  destruct (Hp _ _ Epq) as (d' & Hd' & Hdq & _).
  rewrite Hdp in Hd'; injection Hd' as <-.
  destruct (deacc_of_some _ _ _ Hdp) as (wp & Hwp & Ewp).
  destruct (deacc_of_some _ _ _ Hdq) as (wq & Hwq & Ewq).
  unfold deacc_of in Hd; rewrite Hw in Hd; injection Hd as Hd.
  unfold inv_of in Epq; rewrite Hwp in Epq.
  exists wp, q, wq; repeat split; try assumption.
  - rewrite Ewq, Hd; unfold invert; apply rev_involutive.
  - rewrite Ewp, Hd; reflexivity.
Qed.

Lemma setup_reverse_partner_symmetric_witness :
  dict_get str_eqb (words (WordsList_init pair_words (Some 2%nat))) (lit "ab") = Some 0%nat /\
  wl_heap (WordsList_init pair_words (Some 2%nat)) !! 0%nat
    = Some (mkWord (lit "ab") (lit "ab") (Some 1%nat)) /\
  exists wp q wq,
    wl_heap (WordsList_init pair_words (Some 2%nat)) !! 1%nat = Some wp /\ inverted wp = Some q /\
    wl_heap (WordsList_init pair_words (Some 2%nat)) !! q = Some wq /\
    deaccented wq = lit "ab" /\ invert (lit "ab") = deaccented wp.
Proof.
  split; [vm_compute; reflexivity|split; [vm_compute; reflexivity|]].
  apply (setup_reverse_partner_symmetric pair_words (Some 2%nat) (lit "ab") 0 1
           (mkWord (lit "ab") (lit "ab") (Some 1%nat))); vm_compute; reflexivity.
Defined.

(** ** Positional lookups (C7, C10) *)

Lemma wfl_loop_sound st letters position larg items c :
  wl_ok st -> In c (fst (wfl_loop st letters position larg items)) ->
  exists w, wl_heap st !! c = Some w /\
    slice (deaccented w) position (position + List.length letters) = letters /\
    (forall n, larg = Some n -> n <> 0%nat -> List.length (deaccented w) = n).
Proof.
  intros Hok; induction items as [|item items IH]; cbn; [contradiction|].
  destruct (negb (len_falsy larg) && _) eqn:Elen; [exact IH|].
  destruct (dict_get str_eqb (words st) item) as [c0|] eqn:Ec0; [|cbn; contradiction].
  destruct (wl_heap st !! c0) as [cw|] eqn:Ecw; [|cbn; contradiction].
  destruct (negb (str_eqb _ letters)) eqn:Esl; [exact IH|].
  destruct (wfl_loop st letters position larg items) as [ys e] eqn:Erest; cbn.
  intros [<-|Hin]; [|apply IH; exact Hin].
  exists cw; split; [exact Ecw|split].
  - apply negb_false_iff, str_eqb_eq in Esl; exact Esl.
  - intros n -> Hn.
    pose proof (wl_keys _ Hok _ _ Ec0) as Hk; unfold deacc_of in Hk; rewrite Ecw in Hk.
    injection Hk as ->.
    apply andb_false_iff in Elen; cbn in Elen.
    destruct (Nat.eqb_spec n 0); [contradiction|].
    destruct Elen as [E|E]; [discriminate|apply negb_false_iff, Nat.eqb_eq in E; exact E].
Qed.

(** C7: every word yielded by [word_for_letters_in_position(letters,
    position, length)] has [letters] at [position] in its deaccented form,
    and the requested length when one (non-zero) is given. *)
Theorem word_for_letters_in_position_sound (ws : list str) (length : option nat) (letters : str)
    (position : nat) (larg : option nat) (c : nat) :
  In c (fst (word_for_letters_in_position (WordsList_init ws length) letters position larg)) ->
  exists w, wl_heap (WordsList_init ws length) !! c = Some w /\
    slice (deaccented w) position (position + List.length letters) = letters /\
    (forall n, larg = Some n -> n <> 0%nat -> List.length (deaccented w) = n).
Proof.
  unfold word_for_letters_in_position; destruct letters as [|l0 rest]; [cbn; contradiction|].
  apply wfl_loop_sound, wl_ok_init.
Qed.

Lemma word_for_letters_in_position_sound_witness :
  In 0%nat (fst (word_for_letters_in_position (WordsList_init pair_words (Some 2%nat)) (lit "a") 0 (Some 2%nat))) /\
  exists w, wl_heap (WordsList_init pair_words (Some 2%nat)) !! 0%nat = Some w /\
    slice (deaccented w) 0 (0 + List.length (lit "a")) = lit "a" /\
    (forall n, Some 2%nat = Some n -> n <> 0%nat -> List.length (deaccented w) = n).
Proof.
  split; [vm_compute; left; reflexivity|].
  apply word_for_letters_in_position_sound; vm_compute; left; reflexivity.
Defined.

Lemma wfl_loop_no_exn st letters position larg items :
  wl_ok st -> (forall item, In item items -> exists r, dict_get str_eqb (words st) item = Some r) ->
  snd (wfl_loop st letters position larg items) = None.
Proof.
  intros Hok; induction items as [|item items IH]; intros Hitems; cbn; [reflexivity|].
  assert (IH' : snd (wfl_loop st letters position larg items) = None)
    by (apply IH; intros x Hx; apply Hitems; right; exact Hx).
  destruct (negb (len_falsy larg) && _); [exact IH'|].
  destruct (Hitems item (or_introl eq_refl)) as (r & Hr); rewrite Hr.
  destruct (deacc_of_some _ _ _ (wl_keys _ Hok _ _ Hr)) as (w & Hw & _); rewrite Hw.
  destruct (negb _); [exact IH'|].
  destruct (wfl_loop st letters position larg items) as [ys e]; exact IH'.
Qed.

Lemma required_letters_length (h : heap) pos rows req :
  required_letters h pos rows = Ok req -> List.length req = List.length rows.
Proof.
  revert req; induction rows as [|[r|] rows IH]; intros req; cbn; [injection 1 as <-; reflexivity| |discriminate].
  destruct (h !! r) as [w|]; [|discriminate].
  destruct (nth_error _ _); [|discriminate].
  destruct (required_letters h pos rows) as [s|e]; [|discriminate].
  injection 1 as <-; cbn; f_equal; apply IH; reflexivity.
Qed.

Lemma middle_pos_bound (L pos : nat) : (pos <= middle_pos L)%nat -> (1 <= pos)%nat -> (2 * pos + 1 <= L)%nat.
Proof. unfold middle_pos; intros H1 H2; pose proof (Nat.Div0.mul_div_le (L + 1) 2); lia. Qed.

(** C10: [letters[0]] fails on an empty pattern; on a non-empty one the
    lookup in a built [WordsList] raises nothing; and the pattern built at
    ring [pos], [1 <= pos <= middle_pos], has [length - 2*pos >= 1] letters. *)
Theorem word_for_letters_in_position_precondition :
  (forall st position larg, word_for_letters_in_position st [] position larg = ([], Some IndexError)) /\
  (forall ws length letters position larg, letters <> [] ->
     snd (word_for_letters_in_position (WordsList_init ws length) letters position larg) = None) /\
  (forall (h : heap) (g : Sator) (L pos : nat) (req : str),
     (1 <= pos <= middle_pos L)%nat -> List.length (content g) = L ->
     required h g pos L = Ok req -> List.length req = (L - 2 * pos)%nat /\ (1 <= List.length req)%nat).
Proof.
  split; [reflexivity|split].
  - intros ws length [|l0 rest] position larg Hne; [contradiction|]; cbn [word_for_letters_in_position].
    pose proof (wl_ok_init ws length) as Hok.
    destruct (dict_get lp_key_eqb _ _) as [items|] eqn:Ei.
    + apply wfl_loop_no_exn; [exact Hok|]; intros item Hin; exact (wl_index _ Hok _ _ _ Ei Hin).
    + reflexivity.
  - intros h g L pos req [H1 H2] Hlen Hreq.
    apply required_letters_length in Hreq; unfold slice in Hreq.
    pose proof (middle_pos_bound L pos H2 H1).
    rewrite length_firstn, length_skipn, Hlen in Hreq; lia.
Qed.

Lemma word_for_letters_in_position_precondition_witness :
  word_for_letters_in_position (WordsList_init pair_words None) [] 0 None = ([], Some IndexError) /\
  (lit "a" <> [] /\
   snd (word_for_letters_in_position (WordsList_init pair_words (Some 2%nat)) (lit "a") 0 (Some 2%nat)) = None) /\
  ((1 <= 1 <= middle_pos 4)%nat /\
   List.length (content (mkSator [0%nat] 4 [None; Some 1%nat; Some 0%nat; None])) = 4%nat /\
   required (wl_heap (WordsList_init quad_words (Some 4%nat)))
     (mkSator [0%nat] 4 [None; Some 1%nat; Some 0%nat; None]) 1 4 = Ok (lit "da") /\
   List.length (lit "da") = (4 - 2 * 1)%nat /\ (1 <= List.length (lit "da"))%nat).
Proof.
  destruct word_for_letters_in_position_precondition as (P1 & P2 & P3).
  split; [apply P1|split; [split; [discriminate|apply P2; discriminate]|]].
  assert (Hr : required (wl_heap (WordsList_init quad_words (Some 4%nat)))
                 (mkSator [0%nat] 4 [None; Some 1%nat; Some 0%nat; None]) 1 4 = Ok (lit "da"))
    by (vm_compute; reflexivity).
  split; [vm_compute; lia|split; [reflexivity|split; [exact Hr|]]].
  refine (P3 _ _ 4%nat 1%nat _ _ _ Hr); [vm_compute; lia|reflexivity].
Defined.

(** ** The recursive step (C4) *)

Lemma candidate_loop_none (h : heap) rec cs idx nw :
  Forall (fun c => inv_of h c = None) cs -> candidate_loop h rec cs idx nw = ([], None, nw).
Proof.
  intros Hall; revert idx; induction Hall as [|c cs Hc _ IH]; intros idx; cbn; [reflexivity|].
  rewrite Hc; cbn; apply IH.
Qed.

(** C4: [pos == 0] yields the accumulator unconditionally; at [pos > 0],
    when no matching candidate has a reverse partner, the accumulator is
    yielded iff [near_miss >= pos], and nothing else is yielded. *)
Theorem iter_sator_for_central_step (S : Satorter) (frames : nat) (path : list nat) (rw pos : nat)
    (sator new_sator : Sator) :
  copy_with_word_in_pos (wl_heap (sw S)) sator (inv_of (wl_heap (sw S)) rw) (Z.of_nat pos) path
    = Ok new_sator ->
  (pos = 0%nat -> iter_sator_for_central S (Datatypes.S frames) path rw pos sator = ([new_sator], None)) /\
  (forall req cands, (0 < pos)%nat ->
     required (wl_heap (sw S)) new_sator pos (s_len S) = Ok req ->
     word_for_letters_in_position (sw S) req pos (Some (s_len S)) = (cands, None) ->
     Forall (fun c => inv_of (wl_heap (sw S)) c = None) cands ->
     iter_sator_for_central S (Datatypes.S frames) path rw pos sator
       = ((if Nat.leb pos (near_miss S) then [new_sator] else []), None)).
Proof.
  intros Hcopy; split.
  - intros ->; cbn [iter_sator_for_central]; rewrite Hcopy; reflexivity.
  - intros req cands Hpos Hreq Hw Hall.
    destruct pos as [|pos']; [lia|].
    cbn [iter_sator_for_central]; rewrite Hcopy, Hreq, Hw, candidate_loop_none by exact Hall.
    cbn [andb]; destruct (Nat.leb _ _); reflexivity.
Qed.

Lemma iter_sator_for_central_step_witness :
  let S := mkSatorter (WordsList_init quad_words (Some 4%nat)) 1 4 in
  let g := mkSator [2%nat] 4 [None; Some 3%nat; Some 2%nat; None] in
  copy_with_word_in_pos (wl_heap (sw S)) (Sator_new [] 4) (inv_of (wl_heap (sw S)) 2) 1 [2%nat] = Ok g /\
  (0 < 1)%nat /\
  required (wl_heap (sw S)) g 1 4 = Ok (lit "qp") /\
  word_for_letters_in_position (sw S) (lit "qp") 1 (Some 4%nat) = ([], None) /\
  iter_sator_for_central S 1000 [2%nat] 2 1 (Sator_new [] 4) = ([g], None).
Proof.
  intros S g.
  assert (Hc : copy_with_word_in_pos (wl_heap (sw S)) (Sator_new [] 4) (inv_of (wl_heap (sw S)) 2) 1 [2%nat] = Ok g)
    by (vm_compute; reflexivity).
  assert (Hr : required (wl_heap (sw S)) g 1 4 = Ok (lit "qp")) by (vm_compute; reflexivity).
  assert (Hw : word_for_letters_in_position (sw S) (lit "qp") 1 (Some 4%nat) = ([], None))
    by (vm_compute; reflexivity).
  split; [exact Hc|split; [lia|split; [exact Hr|split; [exact Hw|]]]].
  exact (proj2 (iter_sator_for_central_step S 999 [2%nat] 2 1 (Sator_new [] 4) g Hc)
           (lit "qp") [] ltac:(lia) Hr Hw (List.Forall_nil _)).
Defined.

(** ** Placement *)

(** C6 (code bug): [Word("")] is its own reverse partner, so its partner
    is set, yet [Word] defines [__len__] and the partner is false as a
    truth value: [__setitem__]'s [assert word.inverted] rejects the
    placement with "no es reversible" instead of setting the slot. *)
Lemma copy_with_word_in_pos_empty_word :
  inv_of (wl_heap (WordsList_init [[]] None)) 0 = Some 0%nat /\
  copy_with_word_in_pos (wl_heap (WordsList_init [[]] None)) (Sator_new [] 1) (Some 0%nat) 0 [1%nat]
    = Err AssertionError.
Proof. split; vm_compute; reflexivity. Qed.

Lemma py_setitem_in {A} (l : list A) (i : nat) (x : A) :
  (i < List.length l)%nat -> py_setitem l (Z.of_nat i) x = Some (<[i := x]> l).
Proof.
  intros Hi; unfold py_setitem, py_index.
  destruct (Z.leb_spec 0 (Z.of_nat i)); [|lia].
  destruct (Z.ltb_spec (Z.of_nat i) (Z.of_nat (List.length l))); [|lia].
  cbn; rewrite Nat2Z.id; reflexivity.
Qed.

(** X13: for [0 <= pos < length] and a word whose reverse
    partner is set and non-empty, [copy_with_word_in_pos] succeeds, puts
    the word at [pos], its partner at [length-1-pos] unless [pos] is the
    centre, and leaves every other slot as it was. *)
Theorem copy_with_word_in_pos_places (h : heap) (g : Sator) (pos r p : nat) (w wp : Word) (i : list nat) :
  List.length (content g) = slength g -> (pos < slength g)%nat ->
  h !! r = Some w -> inverted w = Some p -> h !! p = Some wp -> deaccented wp <> [] ->
  exists g2, copy_with_word_in_pos h g (Some r) (Z.of_nat pos) i = Ok g2 /\
    slength g2 = slength g /\ List.length (content g2) = slength g /\
    ((2 * pos + 1)%nat <> slength g ->
       content g2 !! pos = Some (Some r) /\ content g2 !! (slength g - 1 - pos)%nat = Some (Some p)) /\
    ((2 * pos + 1)%nat = slength g -> content g2 !! pos = Some (Some r)) /\
    (forall j, j <> pos -> j <> (slength g - 1 - pos)%nat -> content g2 !! j = content g !! j).
Proof.
  intros Hlen Hpos Hr Hinv Hp Hne.
  unfold copy_with_word_in_pos, sator_setitem; cbn [content slength sid]; rewrite Hr, Hinv.
  assert (Ht : truthy h (Some p) = true).
  { cbn; rewrite Hp; destruct (deaccented wp); [contradiction|reflexivity]. }
  rewrite Ht, py_setitem_in by lia; cbn [negb].
  set (c1 := <[pos := Some r]> (content g)).
  destruct (Z.eqb_spec (2 * Z.of_nat pos + 1) (Z.of_nat (slength g))) as [Ec|Ec].
  - eexists; split; [reflexivity|]; cbn [content slength].
    split; [reflexivity|split; [unfold c1; rewrite length_insert; exact Hlen|]].
    split; [intros; lia|split].
    + intros _; unfold c1; apply list_lookup_insert_eq; lia.
    + intros j Hj _; unfold c1; apply list_lookup_insert_ne; congruence.
  - assert (Em : (Z.of_nat (slength g) - Z.of_nat pos - 1)%Z = Z.of_nat (slength g - 1 - pos)) by lia.
    rewrite Em, py_setitem_in by (unfold c1; rewrite length_insert; lia).
    eexists; split; [reflexivity|]; cbn [content slength].
    split; [reflexivity|split; [unfold c1; rewrite !length_insert; exact Hlen|]].
    split; [|split].
    + intros _; split.
      * rewrite list_lookup_insert_ne by lia; unfold c1; apply list_lookup_insert_eq; lia.
      * apply list_lookup_insert_eq; unfold c1; rewrite length_insert; lia.
    + intros; lia.
    + intros j Hj Hj'; rewrite list_lookup_insert_ne by congruence; unfold c1.
      apply list_lookup_insert_ne; congruence.
Qed.

Lemma copy_with_word_in_pos_places_witness :
  let h := wl_heap (WordsList_init pair_words (Some 2%nat)) in
  List.length (content (Sator_new [] 2)) = slength (Sator_new [] 2) /\ (0 < slength (Sator_new [] 2))%nat /\
  h !! 0%nat = Some (mkWord (lit "ab") (lit "ab") (Some 1%nat)) /\
  h !! 1%nat = Some (mkWord (lit "ba") (lit "ba") (Some 0%nat)) /\
  exists g2, copy_with_word_in_pos h (Sator_new [] 2) (Some 0%nat) 0 [1%nat] = Ok g2 /\
    content g2 = [Some 0%nat; Some 1%nat].
Proof.
  intros h.
  assert (H0 : h !! 0%nat = Some (mkWord (lit "ab") (lit "ab") (Some 1%nat))) by (vm_compute; reflexivity).
  assert (H1 : h !! 1%nat = Some (mkWord (lit "ba") (lit "ba") (Some 0%nat))) by (vm_compute; reflexivity).
  split; [reflexivity|split; [cbn; lia|split; [exact H0|split; [exact H1|]]]].
  destruct (copy_with_word_in_pos_places h (Sator_new [] 2) 0 0 1 _ _ [1%nat]
              eq_refl ltac:(cbn; lia) H0 eq_refl H1 ltac:(discriminate)) as (g2 & Hg2 & _).
  exists g2; split; [exact Hg2|].
  revert Hg2; vm_compute; injection 1 as <-; reflexivity.
Defined.

(** ** Deduplication of results (C1) *)

(** C1 (code bug): on [["ab", "ba"]] at length 2 the generator yields two
    distinct [Sator] objects holding the same words: [Sator] has a
    [__hash__] but no [__eq__], so [result in self.results] compares by
    identity and never skips a grid. *)
Theorem generator_yields_equal_grids :
  match generator (mkSatorter (WordsList_init pair_words (Some 2%nat)) 0 2) default_frames false with
  | ([g1; g2], None) =>
      sid g1 <> sid g2 /\
      grid_words (wl_heap (WordsList_init pair_words (Some 2%nat))) g1
      = grid_words (wl_heap (WordsList_init pair_words (Some 2%nat))) g2 /\
      rows (wl_heap (WordsList_init pair_words (Some 2%nat))) g1 = [Some (lit "ba"); Some (lit "ab")] /\
      rows (wl_heap (WordsList_init pair_words (Some 2%nat))) g2 = [Some (lit "ab"); Some (lit "ba")]
  | _ => False
  end.
Proof. vm_compute; split; [discriminate|repeat split]. Qed.

(** ** The per-seed exception handler (C2) *)

Lemma gen_loop_handler_raises (S : Satorter) frames (w : nat) ws i results ys e :
  (Nat.odd (s_len S) && negb (match wl_heap (sw S) !! w with Some x => is_symmetrical x | None => false end))
    = false ->
  iter_sator_for_central S frames [i] w (middle_pos (s_len S)) (Sator_new [] (s_len S)) = (ys, Some e) ->
  gen_loop S frames false (w :: ws) i results = (fst (dedup ys results), Some NameError).
Proof.
  intros Hseed Hrun; cbn [gen_loop]; rewrite Hseed, Hrun.
  destruct (dedup ys results); reflexivity.
Qed.

(** C2 (code bug): when exploring a seed raises (here a [RecursionError]
    with two frames left under the recursion limit), the handler's
    [print(..., sator)] names a global that does not exist, so a
    [NameError] escapes the generator and the next seed, whose near-miss
    grid is yielded when the name is bound, is never explored. *)
Theorem generator_handler_name_error :
  let S := mkSatorter (WordsList_init aaaaa_cdedc (Some 5%nat)) 2 5 in
  iter_sator_for_central S 2 [0%nat] 0 (middle_pos 5) (Sator_new [] 5) = ([], Some RecursionError) /\
  generator S 2 false = ([], Some NameError) /\
  match generator S 2 true with
  | ([g], None) => rows (wl_heap (sw S)) g = [None; None; Some (lit "cdedc"); None; None]
  | _ => False
  end.
Proof. vm_compute; repeat split. Qed.

(** ** Symmetry of the yielded squares (C3) *)

(** C3 (code bug): with [near_miss = 0] on [["abcd", "dcba", "pdaq",
    "qadp"]] the generator yields a full grid whose column 1 is not its
    row 1: the candidate matched against column [pos-1] is placed at row
    [length-pos], its reverse at row [pos-1]. *)
Theorem generator_yields_non_symmetric_square :
  match generator (mkSatorter (WordsList_init quad_words (Some 4%nat)) 0 4) default_frames false with
  | ([g1; g2], None) =>
      Forall (fun o => o <> None) (content g1) /\
      rows (wl_heap (WordsList_init quad_words (Some 4%nat))) g1
        = [Some (lit "qadp"); Some (lit "dcba"); Some (lit "abcd"); Some (lit "pdaq")] /\
      row (wl_heap (WordsList_init quad_words (Some 4%nat))) g1 1 = Some (lit "dcba") /\
      column (wl_heap (WordsList_init quad_words (Some 4%nat))) g1 1 = Some (lit "acbd")
  | _ => False
  end.
Proof. vm_compute; repeat split; repeat constructor; discriminate. Qed.

(** The same on the classical square's words: the single seed [tenet]
    gives two grids, neither of which reads the same down column 0 as
    along row 0. *)
Lemma generator_sator_words :
  match generator (mkSatorter (WordsList_init sator_words (Some 5%nat)) 0 5) default_frames false with
  | ([g1; g2], None) =>
      row (wl_heap (WordsList_init sator_words (Some 5%nat))) g1 0 = Some (lit "sator") /\
      column (wl_heap (WordsList_init sator_words (Some 5%nat))) g1 0 = Some (lit "sotar") /\
      row (wl_heap (WordsList_init sator_words (Some 5%nat))) g2 0 = Some (lit "rotas") /\
      column (wl_heap (WordsList_init sator_words (Some 5%nat))) g2 0 = Some (lit "ratos")
  | _ => False
  end.
Proof. vm_compute; repeat split. Qed.

(** * Further properties of the code *)

(** ** Python's [<] on strings is a strict total order *)

Lemma str_ltb_irrefl (s : str) : str_ltb s s = false.
Proof. induction s as [|a s IH]; cbn; [reflexivity|]; rewrite Z.ltb_irrefl, Z.eqb_refl; exact IH. Qed.

Lemma str_ltb_trans (a b c : str) : str_ltb a b = true -> str_ltb b c = true -> str_ltb a c = true.
Proof.
  revert b c; induction a as [|x a IH]; intros [|y b] [|z c]; cbn; try discriminate; try reflexivity.
  destruct (Z.ltb_spec x y), (Z.eqb_spec x y), (Z.ltb_spec y z), (Z.eqb_spec y z),
    (Z.ltb_spec x z), (Z.eqb_spec x z); intros Ha Hb; try reflexivity; try discriminate; try lia.
  eapply IH; eauto.
Qed.

Lemma str_ltb_total (a b : str) : str_ltb a b = false -> str_ltb b a = false -> a = b.
Proof.
  revert b; induction a as [|x a IH]; intros [|y b]; cbn; try discriminate; try reflexivity.
  destruct (Z.ltb_spec x y), (Z.eqb_spec x y), (Z.ltb_spec y x), (Z.eqb_spec y x);
    intros Ha Hb; try discriminate; try lia.
  subst y; f_equal; apply IH; assumption.
Qed.

Lemma str_ltb_le_lt (t a b : str) : str_ltb t a = false -> str_ltb t b = true -> str_ltb a b = true.
Proof.
  intros H1 H2; destruct (str_ltb a t) eqn:E.
  - exact (str_ltb_trans _ _ _ E H2).
  - rewrite <- (str_ltb_total _ _ H1 E); exact H2.
Qed.

(** ** [sorted] gives the same list for any order of its input *)

Lemma insert_sorted_two (a b : str) (x : list str) :
  (if str_ltb b a then b :: a :: x else a :: b :: x) = (if str_ltb a b then a :: b :: x else b :: a :: x).
Proof.
  destruct (str_ltb b a) eqn:E1, (str_ltb a b) eqn:E2; try reflexivity.
  - pose proof (str_ltb_trans _ _ _ E1 E2) as E; rewrite str_ltb_irrefl in E; discriminate.
  - rewrite (str_ltb_total _ _ E2 E1); reflexivity.
Qed.

Lemma insert_sorted_comm (a b : str) (l : list str) :
  insert_sorted a (insert_sorted b l) = insert_sorted b (insert_sorted a l).
Proof.
  induction l as [|t l IH]; cbn.
  - apply insert_sorted_two.
  - destruct (str_ltb t b) eqn:Htb, (str_ltb t a) eqn:Hta; cbn; rewrite ?Hta, ?Htb.
    + rewrite IH; reflexivity.
    + rewrite (str_ltb_le_lt _ _ _ Hta Htb); cbn; rewrite ?Htb, ?Hta; reflexivity.
    + rewrite (str_ltb_le_lt _ _ _ Htb Hta); cbn; rewrite ?Htb, ?Hta; reflexivity.
    + apply insert_sorted_two.
Qed.

Lemma sorted_strs_Permutation (l1 l2 : list str) : Permutation l1 l2 -> sorted_strs l1 = sorted_strs l2.
Proof.
  induction 1 as [|x l1 l2 _ IH|x y l|l1 l2 l3 _ IH1 _ IH2]; cbn.
  - reflexivity.
  - rewrite IH; reflexivity.
  - apply insert_sorted_comm.
  - congruence.
Qed.

Lemma insert_sorted_perm (s : str) (l : list str) : Permutation (insert_sorted s l) (s :: l).
Proof.
  induction l as [|t l IH]; cbn; [reflexivity|].
  destruct (str_ltb t s); [|reflexivity].
  rewrite IH; apply perm_swap.
Qed.

Lemma sorted_strs_perm (l : list str) : Permutation (sorted_strs l) l.
Proof.
  induction l as [|s l IH]; cbn; [reflexivity|].
  rewrite insert_sorted_perm, IH; reflexivity.
Qed.

Lemma map_original_insert_word (w : Word) (l : list Word) :
  map original (insert_word w l) = insert_sorted (original w) (map original l).
Proof. induction l as [|t l IH]; cbn; [reflexivity|]; destruct (str_ltb _ _); cbn; congruence. Qed.

Lemma map_original_sort_words (l : list Word) : map original (sort_words l) = sorted_strs (map original l).
Proof. induction l as [|w l IH]; cbn; [reflexivity|]; rewrite map_original_insert_word, IH; reflexivity. Qed.

Lemma truthy_words_app_none (h : heap) (c1 c2 : list (option nat)) :
  truthy_words h (c1 ++ None :: c2) = truthy_words h (c1 ++ c2).
Proof. unfold truthy_words; induction c1 as [|o c1 IH]; cbn; [reflexivity|]; rewrite IH; reflexivity. Qed.

(** ** The heap and the dict built by [WordsList.setup] *)

Definition wproj (w : Word) : str * str := (original w, deaccented w).

Lemma map_wproj_alter (h : heap) v i : map wproj (alter (set_inverted_slot v) i h) = map wproj h.
Proof. revert i; induction h as [|w h IH]; intros [|i]; cbn; f_equal; auto. Qed.

Lemma map_wproj_set_inverted (h : heap) obj v : map wproj (set_inverted h obj v) = map wproj h.
Proof.
  unfold set_inverted; destruct v as [i|]; [|apply map_wproj_alter].
  destruct (_ !! i) as [wv|]; [destruct (inverted wv)|]; rewrite ?map_wproj_alter; reflexivity.
Qed.

Lemma setup_snoc st ws s : setup st (ws ++ [s]) = setup_step (setup st ws) s.
Proof. unfold setup; rewrite fold_left_app; reflexivity. Qed.

Lemma setup_step_words st s :
  words (setup_step st s) = dict_set str_eqb (words st) (deaccent s) (length (wl_heap st)).
Proof. unfold setup_step; destruct (new_word_spec (wl_heap st) s) as (w & -> & _); reflexivity. Qed.

Lemma setup_step_lp st s :
  l_and_p (setup_step st s) = register_word_letter_and_position (l_and_p st) (deaccent s).
Proof. unfold setup_step; destruct (new_word_spec (wl_heap st) s) as (w & -> & _); reflexivity. Qed.

Lemma setup_step_proj st s :
  map wproj (wl_heap (setup_step st s)) = map wproj (wl_heap st) ++ [(s, deaccent s)].
Proof.
  unfold setup_step, new_word.
  destruct (is_symmetrical _); cbv beta iota zeta; cbn [wl_heap];
    destruct (truthy _ _); rewrite ?map_wproj_set_inverted, map_app; reflexivity.
Qed.

Lemma setup_heap len ws :
  map wproj (wl_heap (setup (mkWordsList len [] [] []) ws)) = map (fun s => (s, deaccent s)) ws.
Proof.
  induction ws as [|s ws IH] using rev_ind; [reflexivity|].
  rewrite setup_snoc, setup_step_proj, IH, map_app; reflexivity.
Qed.

Lemma setup_heap_length len ws : length (wl_heap (setup (mkWordsList len [] [] []) ws)) = length ws.
Proof. rewrite <- (length_map wproj), setup_heap, length_map; reflexivity. Qed.

Section DictKeys.
Context {K V : Type} (keqb : K -> K -> bool).
Hypothesis keqb_eq : forall a b, keqb a b = true <-> a = b.

Lemma dict_get_In (d : list (K * V)) k v : dict_get keqb d k = Some v -> In (k, v) d.
Proof.
  induction d as [|[k0 v0] d IH]; cbn; [discriminate|].
  destruct (keqb k0 k) eqn:E; [apply keqb_eq in E; subst; injection 1 as <-; left; reflexivity|].
  intros H; right; exact (IH H).
Qed.

Lemma In_dict_get (d : list (K * V)) k v : NoDup (map fst d) -> In (k, v) d -> dict_get keqb d k = Some v.
Proof.
  induction d as [|[k0 v0] d IH]; cbn; [contradiction|].
  intros Hnd [E|Hin]; apply NoDup_cons in Hnd as [Hk0 Hnd'].
  - injection E as -> ->; destruct (keqb k k) eqn:E; [reflexivity|].
    apply (keqb_false keqb keqb_eq) in E; contradiction.
  - destruct (keqb k0 k) eqn:E; [|exact (IH Hnd' Hin)].
    apply keqb_eq in E; subst; exfalso; apply Hk0, list_elem_of_In, (in_map fst _ (k, v)), Hin.
Qed.

Lemma dict_set_keys (d : list (K * V)) k v x : In x (map fst (dict_set keqb d k v)) -> In x (map fst d) \/ x = k.
Proof.
  induction d as [|[k0 v0] d IH]; cbn; [intros [<-|[]]; auto|].
  destruct (keqb k0 k); cbn; [tauto|]. intros [<-|H]; [auto|destruct (IH H); auto].
Qed.

Lemma dict_set_nodup (d : list (K * V)) k v : NoDup (map fst d) -> NoDup (map fst (dict_set keqb d k v)).
Proof.
  induction d as [|[k0 v0] d IH]; cbn; intros Hnd; [apply NoDup_singleton|].
  pose proof Hnd as Hnd0; apply NoDup_cons in Hnd0 as [Hk0 Hnd'].
  destruct (keqb k0 k) eqn:E; cbn; [exact Hnd|].
  apply NoDup_cons; split; [|exact (IH Hnd')].
  intros Hin; apply list_elem_of_In in Hin.
  destruct (dict_set_keys _ _ _ _ Hin) as [Hd| <-]; [apply Hk0, list_elem_of_In, Hd|].
  rewrite (proj2 (keqb_eq _ _) eq_refl) in E; discriminate.
Qed.
End DictKeys.

Lemma setup_words_nodup len ws : NoDup (map fst (words (setup (mkWordsList len [] [] []) ws))).
Proof.
  induction ws as [|s ws IH] using rev_ind; [constructor|].
  rewrite setup_snoc, setup_step_words; apply (dict_set_nodup _ str_eqb_eq), IH.
Qed.

(** [self.words] after [setup]: the object stored under [k] is the one
    built from the last word of the list that normalises to [k]. *)
Lemma setup_words_last len ws k r :
  dict_get str_eqb (words (setup (mkWordsList len [] [] []) ws)) k = Some r <->
  (exists s, ws !! r = Some s /\ deaccent s = k) /\
  (forall j s', (r < j)%nat -> ws !! j = Some s' -> deaccent s' <> k).
Proof.
  induction ws as [|s ws IH] using rev_ind.
  - cbn; split; [discriminate|intros [(s & Hs & _) _]; rewrite lookup_nil in Hs; discriminate].
  - rewrite setup_snoc, setup_step_words, (dict_get_set _ str_eqb_eq), setup_heap_length.
    destruct (str_eqb (deaccent s) k) eqn:E.
    + apply str_eqb_eq in E; split.
      * injection 1 as <-; split; [exists s; split; [apply list_lookup_middle; reflexivity|exact E]|].
        intros j s' Hj Hs'; apply lookup_snoc_Some in Hs'; lia.
      * intros [(s0 & Hs0 & Hd) Hl]; apply lookup_snoc_Some in Hs0.
        destruct Hs0 as [[Hr _]|[-> _]]; [|reflexivity].
        exfalso; apply (Hl (length ws) s Hr); [apply list_lookup_middle; reflexivity|exact E].
    + assert (Hne : deaccent s <> k) by (intros Hk; apply str_eqb_eq in Hk; congruence).
      rewrite IH; split.
      * intros [(s0 & Hs0 & Hd) Hl]; split; [exists s0; split; [apply lookup_app_l_Some; exact Hs0|exact Hd]|].
        intros j s' Hj Hs'; apply lookup_snoc_Some in Hs'.
        destruct Hs' as [[_ Hs']|[_ <-]]; [exact (Hl j s' Hj Hs')|exact Hne].
      * intros [(s0 & Hs0 & Hd) Hl]; split.
        -- apply lookup_snoc_Some in Hs0; destruct Hs0 as [[_ Hs0]|[_ <-]]; [eauto|contradiction].
        -- intros j s' Hj Hs'; apply (Hl j s' Hj), lookup_app_l_Some, Hs'.
Qed.

Lemma setup_words_keys len ws k :
  (exists r, dict_get str_eqb (words (setup (mkWordsList len [] [] []) ws)) k = Some r) <->
  exists s, In s ws /\ deaccent s = k.
Proof.
  induction ws as [|s ws IH] using rev_ind.
  - cbn; split; [intros (r & H); discriminate|intros (s & [] & _)].
  - rewrite setup_snoc, setup_step_words, (dict_get_set _ str_eqb_eq).
    destruct (str_eqb (deaccent s) k) eqn:E.
    + apply str_eqb_eq in E; split; [intros _; exists s; rewrite in_app_iff; cbn; tauto|eauto].
    + rewrite IH; split; intros (s0 & Hs0 & Hd); exists s0; split; try exact Hd.
      * rewrite in_app_iff; auto.
      * apply in_app_iff in Hs0; destruct Hs0 as [|[<-|[]]]; [assumption|].
        apply str_eqb_eq in Hd; congruence.
Qed.

Lemma filtered_words_In ws len s :
  In s (filtered_words ws len) <-> In s ws /\ (len_falsy len = true \/ len = Some (length s)).
Proof.
  unfold filtered_words; rewrite List.filter_In.
  split; intros [Hin Hc]; split.
  - exact (Permutation_in _ (sorted_strs_perm ws) Hin).
  - destruct len as [n|]; cbn in *; [|auto].
    apply orb_true_iff in Hc; destruct Hc as [|Hc]; [auto|right; apply Nat.eqb_eq in Hc; congruence].
  - apply (Permutation_in _ (Permutation_sym (sorted_strs_perm ws)) Hin).
  - apply orb_true_iff; destruct Hc as [| ->]; [auto|right; apply Nat.eqb_refl].
Qed.

(** ** The positional index, exactly *)

Definition lp_has (lp : list (lp_key * list str)) (key : lp_key) (item : str) : Prop :=
  exists items, dict_get lp_key_eqb lp key = Some items /\ In item items.

Lemma in_set_add_iff (l : list str) d item : In item (set_add l d) <-> In item l \/ item = d.
Proof.
  unfold set_add; destruct (existsb (str_eqb d) l) eqn:E.
  - apply existsb_exists in E; destruct E as (x & Hx & Ex); apply str_eqb_eq in Ex; subst x.
    split; [auto|intros [| <-]; assumption].
  - rewrite in_app_iff; cbn; split; intros [H|H]; auto.
    destruct H as [<-|[]]; auto.
Qed.

Lemma lp_add_iff lp k d key item : lp_has (lp_add lp k d) key item <-> lp_has lp key item \/ (key = k /\ item = d).
Proof.
  unfold lp_has, lp_add; destruct (dict_get lp_key_eqb lp k) as [s0|] eqn:E;
    rewrite (dict_get_set _ lp_key_eqb_eq); destruct (lp_key_eqb k key) eqn:Ek.
  - apply lp_key_eqb_eq in Ek; subst key; rewrite E; split.
    + intros (items & [= <-] & Hin); apply in_set_add_iff in Hin; destruct Hin; eauto.
    + intros [(items & [= <-] & Hin)|[_ ->]]; exists (set_add s0 d); rewrite in_set_add_iff; auto.
  - split; [auto|intros [|[-> _]]; [assumption|]].
    rewrite (proj2 (lp_key_eqb_eq k k) eq_refl) in Ek; discriminate.
  - apply lp_key_eqb_eq in Ek; subst key; rewrite E; split.
    + intros (items & [= <-] & Hin); apply in_set_add_iff in Hin; destruct Hin as [[]|]; auto.
    + intros [(items & [=] & _)|[_ ->]]; exists (set_add [] d); rewrite in_set_add_iff; auto.
  - split; [auto|intros [|[-> _]]; [assumption|]].
    rewrite (proj2 (lp_key_eqb_eq k k) eq_refl) in Ek; discriminate.
Qed.

Lemma register_from_iff lp d pos letters key item :
  lp_has (register_from lp d pos letters) key item <->
  lp_has lp key item \/
  (item = d /\ exists j c, nth_error letters j = Some c /\ key = (c, Z.of_nat (pos + j))).
Proof.
  revert lp pos; induction letters as [|a letters IH]; intros lp pos; cbn [register_from].
  - split; [auto|intros [|(_ & j & c & Hj & _)]; [assumption|destruct j; discriminate]].
  - rewrite IH, lp_add_iff; split.
    + intros [[|[-> ->]]|(-> & j & c & Hj & ->)]; [auto| |].
      * right; split; [reflexivity|exists 0%nat, a; split; [reflexivity|f_equal; lia]].
      * right; split; [reflexivity|exists (S j), c; split; [exact Hj|f_equal; lia]].
    + intros [|(-> & [|j] & c & Hj & ->)]; [auto| |].
      * injection Hj as ->; left; right; split; [f_equal; lia|reflexivity].
      * right; split; [reflexivity|exists j, c; split; [exact Hj|f_equal; lia]].
Qed.

Lemma setup_lp len ws c z item :
  lp_has (l_and_p (setup (mkWordsList len [] [] []) ws)) (c, z) item <->
  (exists s, In s ws /\ deaccent s = item) /\ exists j, z = Z.of_nat j /\ nth_error item j = Some c.
Proof.
  induction ws as [|s ws IH] using rev_ind.
  - cbn; split; [intros (items & H & _); discriminate|intros [(s & [] & _) _]].
  - rewrite setup_snoc, setup_step_lp; unfold register_word_letter_and_position.
    rewrite register_from_iff, IH; split.
    + intros [[(s0 & Hs0 & Hd) Hj]|(-> & j & c' & Hj & Hk)].
      * split; [exists s0; rewrite in_app_iff; auto|exact Hj].
      * injection Hk as -> ->; split; [exists s; rewrite in_app_iff; cbn; auto|exists j; auto].
    + intros [(s0 & Hs0 & Hd) (j & -> & Hj)]; apply in_app_iff in Hs0.
      destruct Hs0 as [Hs0|[<-|[]]]; [left; split; eauto|].
      right; split; [congruence|exists j, c; split; [congruence|reflexivity]].
Qed.

(** ** Completeness of [word_for_letters_in_position] *)

Lemma wfl_loop_complete st letters position larg items k r :
  wl_ok st -> (forall item, In item items -> exists r, dict_get str_eqb (words st) item = Some r) ->
  In k items -> dict_get str_eqb (words st) k = Some r ->
  slice k position (position + List.length letters) = letters ->
  (forall n, larg = Some n -> n <> 0%nat -> List.length k = n) ->
  In r (fst (wfl_loop st letters position larg items)).
Proof.
  intros Hok Hitems Hk Hr Hsl Hlen; induction items as [|item items IH]; [contradiction|].
  assert (IH' : In k items -> In r (fst (wfl_loop st letters position larg items)))
    by (intros Hin; apply IH; [intros x Hx; apply Hitems; right; exact Hx|exact Hin]).
  cbn [wfl_loop]; destruct (Hitems item (or_introl eq_refl)) as (r0 & Hr0).
  destruct (deacc_of_some _ _ _ (wl_keys _ Hok _ _ Hr0)) as (w0 & Hw0 & Hd0).
  destruct (decide (item = k)) as [->|Hne].
  - assert (Hr0r : r0 = r) by congruence; subst r0.
    destruct (negb (len_falsy larg) && _) eqn:El.
    + exfalso; destruct larg as [n|]; cbn in El; [|discriminate].
      apply andb_true_iff in El; destruct El as [E1 E2].
      apply negb_true_iff, Nat.eqb_neq in E1; apply negb_true_iff, Nat.eqb_neq in E2.
      apply E2, Hlen; [reflexivity|exact E1].
    + rewrite Hr0, Hw0, Hd0.
      assert (Es : str_eqb (slice k position (position + List.length letters)) letters = true)
        by (apply str_eqb_eq; exact Hsl).
      rewrite Es; cbn [negb]; destruct (wfl_loop st letters position larg items); left; reflexivity.
  - destruct Hk as [Hk|Hk]; [contradiction|].
    destruct (negb (len_falsy larg) && _); [exact (IH' Hk)|].
    rewrite Hr0, Hw0; destruct (negb _); [exact (IH' Hk)|].
    pose proof (IH' Hk) as H; destruct (wfl_loop st letters position larg items); right; exact H.
Qed.

Lemma slice_head (k : str) p l0 rest : slice k p (p + List.length (l0 :: rest)) = l0 :: rest -> nth_error k p = Some l0.
Proof.
  unfold slice; replace (p + List.length (l0 :: rest) - p)%nat with (S (List.length rest)) by (cbn; lia).
  revert k; induction p as [|p IH]; intros [|a k]; cbn; try discriminate.
  - injection 1 as ->; reflexivity.
  - apply IH.
Qed.

(** ** When an indexed word has a reverse partner *)

Lemma deacc_of_snoc (h : heap) w y :
  deacc_of (h ++ [w]) y
  = if decide (y < length h)%nat then deacc_of h y
    else if decide (y = length h) then Some (deaccented w) else None.
Proof.
  unfold deacc_of; rewrite lookup_app.
  destruct (h !! y) as [u|] eqn:E.
  - apply lookup_lt_Some in E; destruct (decide (y < length h)%nat); [reflexivity|lia].
  - apply lookup_ge_None in E; destruct (decide (y < length h)%nat); [lia|].
    destruct (decide (y = length h)) as [->|Hne].
    + rewrite Nat.sub_diag; reflexivity.
    + rewrite lookup_ge_None_2; [reflexivity|cbn; lia].
Qed.

Lemma alter_inv_keep (h1 : heap) i wv obj y :
  h1 !! i = Some wv -> inv_of h1 y <> None -> inv_of (alter (set_inverted_slot (Some obj)) i h1) y <> None.
Proof.
  intros Hi Hy; rewrite (inv_of_alter h1 i wv _ y Hi).
  destruct (decide (i = y)); [discriminate|exact Hy].
Qed.

Lemma set_inverted_keep (h : heap) obj i y :
  (exists w, h !! obj = Some w) -> inv_of h y <> None -> inv_of (set_inverted h obj (Some i)) y <> None.
Proof.
  intros (w & Hw) Hy; unfold set_inverted.
  set (h1 := alter (set_inverted_slot (Some i)) obj h).
  assert (Hy1 : inv_of h1 y <> None).
  { unfold h1; rewrite (inv_of_alter h obj w _ y Hw); destruct (decide (obj = y)); [discriminate|exact Hy]. }
  destruct (h1 !! i) as [wv|] eqn:Ei; [|exact Hy1].
  destruct (inverted wv); [exact Hy1|exact (alter_inv_keep h1 i wv obj y Ei Hy1)].
Qed.

Lemma set_inverted_target (h : heap) obj i :
  (exists w, h !! obj = Some w) -> (exists w, h !! i = Some w) -> inv_of (set_inverted h obj (Some i)) i <> None.
Proof.
  intros (w & Hw) (wi & Hwi); unfold set_inverted.
  set (h1 := alter (set_inverted_slot (Some i)) obj h).
  assert (Hd : deacc_of h1 i = Some (deaccented wi)) by (unfold h1; rewrite deacc_of_alter; unfold deacc_of; rewrite Hwi; reflexivity).
  destruct (deacc_of_some _ _ _ Hd) as (wv & Hwv & _); rewrite Hwv.
  destruct (inverted wv) eqn:Ev.
  - unfold inv_of; rewrite Hwv, Ev; discriminate.
  - rewrite (inv_of_alter h1 i wv _ i Hwv), decide_True by reflexivity; discriminate.
Qed.

Lemma set_inverted_self (h : heap) obj i :
  (exists w, h !! obj = Some w) -> inv_of (set_inverted h obj (Some i)) obj = Some i.
Proof.
  intros (w & Hw); unfold set_inverted.
  set (h1 := alter (set_inverted_slot (Some i)) obj h).
  assert (I1 : inv_of h1 obj = Some i)
    by (unfold h1; rewrite (inv_of_alter h obj w _ obj Hw), decide_True by reflexivity; reflexivity).
  destruct (h1 !! i) as [wv|] eqn:Ei; [|exact I1].
  destruct (inverted wv) eqn:Ev; [exact I1|].
  rewrite (inv_of_alter h1 i wv _ obj Ei).
  destruct (decide (i = obj)) as [->|]; [|exact I1].
  unfold inv_of in I1; rewrite Ei, Ev in I1; discriminate.
Qed.

Lemma invert_nonempty (d : str) : d <> [] -> invert d <> [].
Proof. unfold invert; intros Hd E; apply (f_equal (@rev _)) in E; rewrite rev_involutive in E; exact (Hd E). Qed.

Record wl_ok2 (st : WordsList) : Prop := {
  wl_heap_keys : forall r d, deacc_of (wl_heap st) r = Some d ->
                   exists r', dict_get str_eqb (words st) d = Some r';
  wl_inv_complete : forall k r, dict_get str_eqb (words st) k = Some r -> k <> [] ->
                   (exists r', dict_get str_eqb (words st) (invert k) = Some r') ->
                   inv_of (wl_heap st) r <> None
}.

Lemma wl_ok2_setup_step st s : wl_ok st -> wl_ok2 st -> wl_ok2 (setup_step st s).
Proof.
  intros Hok [Hhk Hic]; unfold setup_step.
  destruct (new_word_spec (wl_heap st) s) as (w & -> & Hd & _).
  set (h := wl_heap st) in *; set (d := deaccent s) in *.
  set (ws1 := dict_set str_eqb (words st) d (length h)).
  assert (Hk1 : forall k r, dict_get str_eqb ws1 k = Some r -> deacc_of (h ++ [w]) r = Some k).
  { intros k r; unfold ws1; rewrite (dict_get_set _ str_eqb_eq).
    destruct (str_eqb d k) eqn:E.
    - apply str_eqb_eq in E; subst k; injection 1 as <-; rewrite deacc_of_snoc_new; congruence.
    - intros H; apply deacc_of_snoc_old, (wl_keys _ Hok), H. }
  assert (Hw : exists w', (h ++ [w]) !! length h = Some w') by (exists w; apply list_lookup_middle; reflexivity).
  assert (Ht : forall i k, dict_get str_eqb ws1 k = Some i -> k <> [] -> truthy (h ++ [w]) (Some i) = true).
  { intros i k Hi Hk; destruct (deacc_of_some _ _ _ (Hk1 _ _ Hi)) as (wi & Hwi & Ewi).
    cbn; rewrite Hwi, Ewi; destruct k; [contradiction|reflexivity]. }
  cbn [wl_heap words l_and_p].
  set (h2 := if truthy (h ++ [w]) (dict_get str_eqb ws1 (invert d))
             then set_inverted (h ++ [w]) (length h) (dict_get str_eqb ws1 (invert d)) else h ++ [w]).
  assert (D2 : forall y, deacc_of h2 y = deacc_of (h ++ [w]) y)
    by (intros y; unfold h2; destruct (truthy _ _); [apply deacc_of_set_inverted|reflexivity]).
  assert (K2 : forall y, inv_of (h ++ [w]) y <> None -> inv_of h2 y <> None).
  { intros y Hy; unfold h2; destruct (truthy _ _) eqn:Et; [|exact Hy].
    destruct (dict_get str_eqb ws1 (invert d)) as [i|]; [|cbn in Et; discriminate].
    apply set_inverted_keep; [exact Hw|exact Hy]. }
  constructor.
  - intros y dy Hy; cbn [wl_heap words] in *; rewrite D2, deacc_of_snoc in Hy.
    destruct (decide (y < length h)%nat).
    + destruct (Hhk _ _ Hy) as (r' & Hr'); exact (dict_get_set_some _ str_eqb_eq _ _ _ _ _ Hr').
    + destruct (decide (y = length h)); [|discriminate].
      injection Hy as <-; rewrite Hd; exists (length h); apply (dict_get_set_same _ str_eqb_eq).
  - intros k r Hkr Hne (r' & Hr'); cbn [wl_heap words] in *.
    pose proof Hkr as Hkr0; unfold ws1 in Hkr; rewrite (dict_get_set _ str_eqb_eq) in Hkr.
    destruct (str_eqb d k) eqn:E.
    + apply str_eqb_eq in E; subst k; injection Hkr as <-.
      unfold h2; rewrite Hr', (Ht r' (invert d) Hr' (invert_nonempty d Hne)), set_inverted_self by exact Hw.
      discriminate.
    + assert (Hlt : (r < length h)%nat) by exact (deacc_of_lt _ _ _ (wl_keys _ Hok _ _ Hkr)).
      destruct (dict_get str_eqb (words st) (invert k)) as [r0|] eqn:Eo.
      * apply K2; rewrite inv_of_snoc, decide_True by exact Hlt.
        exact (Hic k r Hkr Hne (ex_intro _ r0 Eo)).
      * unfold ws1 in Hr'; rewrite (dict_get_set _ str_eqb_eq), Eo in Hr'.
        destruct (str_eqb d (invert k)) eqn:E2; [|discriminate].
        apply str_eqb_eq in E2.
        assert (Ei : dict_get str_eqb ws1 (invert d) = Some r)
          by (rewrite E2; unfold invert; rewrite rev_involutive; exact Hkr0).
        unfold h2; rewrite Ei, (Ht r k Hkr0 Hne).
        apply set_inverted_target; [exact Hw|].
        destruct (deacc_of_some _ _ _ (Hk1 _ _ Hkr0)) as (wr & Hwr & _); eauto.
Qed.

Lemma wl_ok2_init ws length : wl_ok2 (WordsList_init ws length).
Proof.
  unfold WordsList_init; generalize (filtered_words ws length) as l; intros l.
  assert (H : wl_ok (mkWordsList length [] [] []) /\ wl_ok2 (mkWordsList length [] [] [])).
  { split; constructor; cbn; try discriminate;
      intros ? ? H; unfold inv_of, deacc_of in H; rewrite lookup_nil in H; discriminate. }
  revert H; unfold setup; generalize (mkWordsList length [] [] []) as st.
  induction l as [|s l IH]; intros st [H1 H2]; cbn; [exact H2|].
  apply IH; split; [apply wl_ok_setup_step, H1|apply wl_ok2_setup_step; assumption].
Qed.

Lemma partner_iff_reverse_key ws length k r :
  dict_get str_eqb (words (WordsList_init ws length)) k = Some r -> k <> [] ->
  (inv_of (wl_heap (WordsList_init ws length)) r <> None <->
   exists r', dict_get str_eqb (words (WordsList_init ws length)) (invert k) = Some r').
Proof.
  intros Hkr Hne; pose proof (wl_ok_init ws length) as Hok; pose proof (wl_ok2_init ws length) as Hok2.
  split.
  - destruct (inv_of _ r) as [p|] eqn:Ep; [intros _|contradiction].
    destruct (wl_partner _ Hok _ _ Ep) as (d & Hd & Hp & _).
    rewrite (wl_keys _ Hok _ _ Hkr) in Hd; injection Hd as <-.
    exact (wl_heap_keys _ Hok2 _ _ Hp).
  - exact (wl_inv_complete _ Hok2 _ _ Hkr Hne).
Qed.

(** ** The grids built by the search *)

(** [g] is a grid of side [L] whose slots [q .. L-1-q] hold words of
    normalised length [L], the word in slot [L-1-i] being the reversal of
    the word in slot [i], and whose other slots are [None]. *)
Definition band_ok (h : heap) (L : nat) (g : Sator) (q : nat) : Prop :=
  slength g = L /\ List.length (content g) = L /\
  forall i, (i < L)%nat ->
    ((q <= i /\ i + q < L)%nat ->
       exists r d r', content g !! i = Some (Some r) /\ deacc_of h r = Some d /\ List.length d = L /\
         content g !! (L - 1 - i)%nat = Some (Some r') /\ deacc_of h r' = Some (invert d)) /\
    (~ (q <= i /\ i + q < L)%nat -> content g !! i = Some None).

Lemma lookup_repeat_lt {A} (x : A) n i : (i < n)%nat -> repeat x n !! i = Some x.
Proof. revert i; induction n as [|n IH]; intros [|i] Hi; cbn; try lia; [reflexivity|apply IH; lia]. Qed.

Lemma sator_setitem_ok (h : heap) (s : Sator) (pos x : nat) (g : Sator) :
  List.length (content s) = slength s -> (pos < slength s)%nat ->
  sator_setitem h s (Z.of_nat pos) (Some x) = Ok g ->
  exists p, inv_of h x = Some p /\ slength g = slength s /\
    content g !! pos = Some (Some x) /\
    ((2 * pos + 1)%nat <> slength s -> content g !! (slength s - 1 - pos)%nat = Some (Some p)) /\
    (forall j, j <> pos -> j <> (slength s - 1 - pos)%nat -> content g !! j = content s !! j) /\
    List.length (content g) = slength s.
Proof.
  intros Hlen Hpos; unfold sator_setitem.
  destruct (h !! x) as [w|] eqn:Hw; [|discriminate].
  destruct (inverted w) as [p|] eqn:Hp; [|cbn; discriminate].
  destruct (negb (truthy h (Some p))); [discriminate|].
  rewrite py_setitem_in by lia.
  set (c1 := <[pos := Some x]> (content s)).
  assert (Hinv : inv_of h x = Some p) by (unfold inv_of; rewrite Hw; exact Hp).
  destruct (Z.eqb_spec (2 * Z.of_nat pos + 1) (Z.of_nat (slength s))) as [Ec|Ec]; cbn [negb].
  - injection 1 as <-; exists p; cbn [content slength]; split; [exact Hinv|split; [reflexivity|]].
    split; [unfold c1; apply list_lookup_insert_eq; lia|split; [intros; lia|split]].
    + intros j Hj _; unfold c1; apply list_lookup_insert_ne; congruence.
    + unfold c1; rewrite length_insert; exact Hlen.
  - assert (Em : (Z.of_nat (slength s) - Z.of_nat pos - 1)%Z = Z.of_nat (slength s - 1 - pos)) by lia.
    rewrite Em, py_setitem_in by (unfold c1; rewrite length_insert; lia).
    injection 1 as <-; exists p; cbn [content slength]; split; [exact Hinv|split; [reflexivity|]].
    split; [|split; [|split]].
    + rewrite list_lookup_insert_ne by lia; unfold c1; apply list_lookup_insert_eq; lia.
    + intros _; apply list_lookup_insert_eq; unfold c1; rewrite length_insert; lia.
    + intros j Hj Hj'; rewrite list_lookup_insert_ne by congruence; unfold c1.
      apply list_lookup_insert_ne; congruence.
    + unfold c1; rewrite !length_insert; exact Hlen.
Qed.

Lemma band_place (h : heap) L g q x dx path g' :
  partner_ok h -> band_ok h L g (S q) -> (2 * q + 1 <= L)%nat ->
  deacc_of h x = Some dx -> List.length dx = L -> ((2 * q + 1)%nat = L -> invert dx = dx) ->
  copy_with_word_in_pos h g (Some x) (Z.of_nat q) path = Ok g' -> band_ok h L g' q.
Proof.
  intros Hp (Hsl & Hlen & Hb) HqL Hx Hxl Hsym Hc.
  unfold copy_with_word_in_pos in Hc.
  apply sator_setitem_ok in Hc as (p & Hinv & Hsl' & Lq & Lm & Lo & Hlen'); cbn [content slength] in *; try lia.
  destruct (Hp _ _ Hinv) as (d0 & Hd0 & Hdp & _); rewrite Hx in Hd0; injection Hd0 as <-.
  rewrite Hsl in *.
  split; [exact Hsl'|split; [exact Hlen'|]].
  intros i Hi; split.
  - intros Hin.
    destruct (decide (i = q)) as [->|Hiq].
    + destruct (decide ((2 * q + 1)%nat = L)) as [Ec|Ec].
      * exists x, dx, x; replace (L - 1 - q)%nat with q by lia; rewrite (Hsym Ec); repeat split; auto.
      * exists x, dx, p; repeat split; auto.
    + destruct (decide (i = (L - 1 - q)%nat)) as [->|Him].
      * assert (Ec : (2 * q + 1)%nat <> L) by lia.
        exists p, (invert dx), x; replace (L - 1 - (L - 1 - q))%nat with q by lia.
        assert (Hii : invert (invert dx) = dx) by (unfold invert; apply rev_involutive).
        rewrite Hii; repeat split; auto; unfold invert; rewrite length_rev; exact Hxl.
      * destruct (proj1 (Hb i Hi) ltac:(lia)) as (r & d & r' & H1 & H2 & H3 & H4 & H5).
        exists r, d, r'; rewrite !Lo by lia; repeat split; auto.
  - intros Hout; rewrite Lo by lia; apply (proj2 (Hb i Hi)); lia.
Qed.

Lemma candidate_loop_in (h : heap) rec cs idx nw g :
  In g (fst (fst (candidate_loop h rec cs idx nw))) -> exists idx' c, In c cs /\ In g (fst (rec idx' c)).
Proof.
  revert idx nw; induction cs as [|c cs IH]; intros idx nw; cbn; [contradiction|].
  destruct (negb _).
  - intros H; destruct (IH _ _ H) as (i' & c' & ? & ?); eauto.
  - destruct (rec idx c) as [ys e] eqn:Er; destruct e as [e|]; cbn.
    + intros H; exists idx, c; rewrite Er; auto.
    + destruct (candidate_loop h rec cs (S idx) false) as [[ys' e'] nw'] eqn:El; cbn.
      intros H; apply in_app_iff in H as [H|H].
      * exists idx, c; rewrite Er; auto.
      * assert (H' : In g (fst (fst (candidate_loop h rec cs (S idx) false)))) by (rewrite El; exact H).
        destruct (IH _ _ H') as (i' & c' & ? & ?); eauto.
Qed.

Lemma wflp_sound st letters position larg c :
  wl_ok st -> In c (fst (word_for_letters_in_position st letters position larg)) ->
  exists w, wl_heap st !! c = Some w /\
    slice (deaccented w) position (position + List.length letters) = letters /\
    (forall n, larg = Some n -> n <> 0%nat -> List.length (deaccented w) = n).
Proof.
  unfold word_for_letters_in_position; destruct letters as [|l0 rest]; [cbn; contradiction|].
  apply wfl_loop_sound.
Qed.

Lemma iter_place (S : Satorter) path rw pos sator d ns :
  wl_ok (sw S) -> (2 * pos + 1 <= s_len S)%nat ->
  band_ok (wl_heap (sw S)) (s_len S) sator (Datatypes.S pos) ->
  deacc_of (wl_heap (sw S)) rw = Some d -> List.length d = s_len S ->
  ((2 * pos + 1)%nat = s_len S -> invert d = d) ->
  copy_with_word_in_pos (wl_heap (sw S)) sator (inv_of (wl_heap (sw S)) rw) (Z.of_nat pos) path = Ok ns ->
  band_ok (wl_heap (sw S)) (s_len S) ns pos.
Proof.
  intros Hok Hpos Hb Hd Hdl Hsym Hc.
  destruct (inv_of (wl_heap (sw S)) rw) as [x|] eqn:Ex; [|cbn in Hc; discriminate].
  destruct (wl_partner _ Hok _ _ Ex) as (d0 & Hd0 & Hdx & _); rewrite Hd in Hd0; injection Hd0 as <-.
  apply (band_place _ _ _ _ _ _ path _ (wl_partner _ Hok) Hb Hpos Hdx); [| |exact Hc].
  - unfold invert; rewrite length_rev; exact Hdl.
  - intros E; rewrite (Hsym E); exact (Hsym E).
Qed.

Lemma iter_band (S : Satorter) frames path rw pos sator g d :
  wl_ok (sw S) -> s_len S <> 0%nat -> (2 * pos + 1 <= s_len S)%nat ->
  band_ok (wl_heap (sw S)) (s_len S) sator (Datatypes.S pos) ->
  deacc_of (wl_heap (sw S)) rw = Some d -> List.length d = s_len S ->
  ((2 * pos + 1)%nat = s_len S -> invert d = d) ->
  In g (fst (iter_sator_for_central S frames path rw pos sator)) ->
  exists q, (q <= pos)%nat /\ (q = 0 \/ q <= near_miss S)%nat /\ band_ok (wl_heap (sw S)) (s_len S) g q.
Proof.
  intros Hok HL; revert g frames path rw sator d.
  induction pos as [|pos IH]; intros g frames path rw sator d Hpos Hb Hd Hdl Hsym Hin;
    (destruct frames as [|frames]; cbn [iter_sator_for_central] in Hin; [contradiction|]);
    destruct (copy_with_word_in_pos _ _ _ _ _) as [ns|e] eqn:Ec; try (cbn in Hin; contradiction);
    pose proof (iter_place _ _ _ _ _ _ _ Hok Hpos Hb Hd Hdl Hsym Ec) as Hns.
  - destruct Hin as [<-|[]]; exists 0%nat; split; [lia|split; [auto|exact Hns]].
  - destruct (required _ ns _ _) as [req|e] eqn:Er; [|cbn in Hin; contradiction].
    destruct (word_for_letters_in_position (sw S) req (Datatypes.S pos) (Some (s_len S))) as [cands ce] eqn:Ew.
    set (rec := fun idx c => iter_sator_for_central S frames (idx :: path) c pos ns) in Hin.
    destruct (candidate_loop _ rec cands 0 true) as [[ys e] nw] eqn:El.
    assert (Hys : forall g, In g ys -> exists q, (q <= Datatypes.S pos)%nat /\ (q = 0 \/ q <= near_miss S)%nat /\
                                   band_ok (wl_heap (sw S)) (s_len S) g q).
    { intros g' Hg'.
      assert (Hg'' : In g' (fst (fst (candidate_loop (wl_heap (sw S)) rec cands 0 true)))) by (rewrite El; exact Hg').
      destruct (candidate_loop_in _ _ _ _ _ _ Hg'') as (idx & c & Hc & Hgc).
      assert (Hc' : In c (fst (word_for_letters_in_position (sw S) req (Datatypes.S pos) (Some (s_len S)))))
        by (rewrite Ew; exact Hc).
      destruct (wflp_sound _ _ _ _ _ Hok Hc') as (wc & Hwc & _ & Hlc).
      destruct (IH g' frames (idx :: path) c ns (deaccented wc)) as (q & Hq1 & Hq2 & Hq3);
        [lia|exact Hns|unfold deacc_of; rewrite Hwc; reflexivity|apply Hlc; [reflexivity|exact HL]|lia|exact Hgc|].
      exists q; split; [lia|auto]. }
    destruct e as [e|]; [exact (Hys g Hin)|].
    destruct ce as [e|]; [exact (Hys g Hin)|].
    destruct (nw && Nat.leb (Datatypes.S pos) (near_miss S)) eqn:Enm; [|exact (Hys g Hin)].
    cbn in Hin; apply in_app_iff in Hin as [Hin|[<-|[]]]; [exact (Hys g Hin)|].
    apply andb_true_iff in Enm as [_ Enm]; apply Nat.leb_le in Enm.
    exists (Datatypes.S pos); split; [lia|split; [auto|exact Hns]].
Qed.

(** ** The seed loop *)

Lemma dedup_spec ys results :
  NoDup (map sid (fst (dedup ys results))) /\
  (forall y, In y (fst (dedup ys results)) -> ~ In (sid y) results /\ In y ys) /\
  (forall x, In x (snd (dedup ys results)) <-> In x results \/ In x (map sid (fst (dedup ys results)))).
Proof.
  revert results; induction ys as [|y ys IH]; intros results; cbn.
  - split; [constructor|split; [intros _ []|intros x; tauto]].
  - destruct (existsb (fun i => bool_decide (i = sid y)) results) eqn:E.
    + destruct (IH results) as (H1 & H2 & H3); split; [exact H1|split; [|exact H3]].
      intros z Hz; destruct (H2 z Hz); auto.
    + destruct (IH (sid y :: results)) as (H1 & H2 & H3).
      destruct (dedup ys (sid y :: results)) as [out r'] eqn:Ed; cbn in *.
      assert (Hy : ~ In (sid y) results).
      { intros Hin; assert (Hx : existsb (fun i => bool_decide (i = sid y)) results = true)
          by (apply existsb_exists; exists (sid y); split; [exact Hin|apply bool_decide_eq_true; reflexivity]).
        congruence. }
      split; [|split].
      * apply NoDup_cons; split; [|exact H1].
        rewrite list_elem_of_In; intros Hin; apply in_map_iff in Hin as (z & Ez & Hz).
        apply (proj1 (H2 z Hz)); left; symmetry; exact Ez.
      * intros z [<-|Hz]; [auto|]; destruct (H2 z Hz) as [Hn Hin]; split; [|auto].
        intros Hr; apply Hn; right; exact Hr.
      * intros x; rewrite H3; cbn; tauto.
Qed.

Lemma gen_loop_nodup (S : Satorter) frames b seeds i results :
  NoDup (map sid (fst (gen_loop S frames b seeds i results))) /\
  (forall y, In y (fst (gen_loop S frames b seeds i results)) -> ~ In (sid y) results).
Proof.
  revert i results; induction seeds as [|w seeds IH]; intros i results; cbn [gen_loop].
  - split; [constructor|intros _ []].
  - destruct (_ && _); [apply IH|].
    destruct (iter_sator_for_central _ _ _ _ _ _) as [ys e].
    pose proof (dedup_spec ys results) as (D1 & D2 & D3).
    destruct (dedup ys results) as [out r'] eqn:Ed; cbn [fst snd] in *.
    assert (Happ : forall out' (e' : option exn), NoDup (map sid out') /\ (forall y, In y out' -> ~ In (sid y) r') ->
              NoDup (map sid (fst (out ++ out', e'))) /\
              (forall y, In y (fst (out ++ out', e')) -> ~ In (sid y) results)).
    { intros out' e' [N1 N2]; cbn [fst]; rewrite map_app; split.
      - apply NoDup_app; split; [exact D1|split; [|exact N1]].
        intros x Hx Hx'; rewrite list_elem_of_In in Hx, Hx'.
        apply in_map_iff in Hx' as (z & <- & Hz); apply (N2 z Hz), D3; right; exact Hx.
      - intros y Hy; apply in_app_iff in Hy as [Hy|Hy]; [exact (proj1 (D2 y Hy))|].
        intros Hr; apply (N2 y Hy), D3; left; exact Hr. }
    destruct e as [e|]; [destruct b|].
    + pose proof (IH (Datatypes.S i) r') as HI; destruct (gen_loop S frames true seeds (Datatypes.S i) r'); exact (Happ _ _ HI).
    + cbn [fst]; split; [exact D1|intros y Hy; exact (proj1 (D2 y Hy))].
    + pose proof (IH (Datatypes.S i) r') as HI; destruct (gen_loop S frames b seeds (Datatypes.S i) r'); exact (Happ _ _ HI).
Qed.

Lemma gen_loop_in (S : Satorter) frames b seeds i results g :
  In g (fst (gen_loop S frames b seeds i results)) ->
  exists w i', In w seeds /\
    (Nat.odd (s_len S) = true -> exists x, wl_heap (sw S) !! w = Some x /\ is_symmetrical x = true) /\
    In g (fst (iter_sator_for_central S frames [i'] w (middle_pos (s_len S)) (Sator_new [] (s_len S)))).
Proof.
  revert i results; induction seeds as [|w seeds IH]; intros i results; cbn [gen_loop]; [intros []|].
  destruct (Nat.odd (s_len S) && _) eqn:Es.
  - intros H; destruct (IH _ _ H) as (w' & i' & ? & ? & ?); exists w', i'; split; [right|]; auto.
  - assert (Hsym : Nat.odd (s_len S) = true -> exists x, wl_heap (sw S) !! w = Some x /\ is_symmetrical x = true).
    { intros Ho; rewrite Ho in Es; cbn in Es.
      destruct (wl_heap (sw S) !! w) as [x|]; [|discriminate]; apply negb_false_iff in Es; eauto. }
    destruct (iter_sator_for_central _ _ _ _ _ _) as [ys e] eqn:Ei.
    pose proof (dedup_spec ys results) as (_ & D2 & _).
    destruct (dedup ys results) as [out r'] eqn:Ed; cbn [fst snd] in *.
    assert (Hout : forall y, In y out -> exists w' i', In w' (w :: seeds) /\
              (Nat.odd (s_len S) = true -> exists x, wl_heap (sw S) !! w' = Some x /\ is_symmetrical x = true) /\
              In y (fst (iter_sator_for_central S frames [i'] w' (middle_pos (s_len S)) (Sator_new [] (s_len S))))).
    { intros y Hy; exists w, i; split; [left; reflexivity|split; [exact Hsym|rewrite Ei; exact (proj2 (D2 y Hy))]]. }
    assert (Hrest : forall b', In g (fst (let (out', e') := gen_loop S frames b' seeds (Datatypes.S i) r' in
                                          (out ++ out', e'))) ->
              (In g (fst (gen_loop S frames b' seeds (Datatypes.S i) r')) ->
               exists w' i', In w' seeds /\
               (Nat.odd (s_len S) = true -> exists x, wl_heap (sw S) !! w' = Some x /\ is_symmetrical x = true) /\
               In g (fst (iter_sator_for_central S frames [i'] w' (middle_pos (s_len S)) (Sator_new [] (s_len S))))) ->
              exists w' i', In w' (w :: seeds) /\
              (Nat.odd (s_len S) = true -> exists x, wl_heap (sw S) !! w' = Some x /\ is_symmetrical x = true) /\
              In g (fst (iter_sator_for_central S frames [i'] w' (middle_pos (s_len S)) (Sator_new [] (s_len S))))).
    { intros b' Hg HI; destruct (gen_loop S frames b' seeds (Datatypes.S i) r') as [out' e'] eqn:Eg.
      cbn [fst] in Hg, HI; apply in_app_iff in Hg as [Hg|Hg]; [exact (Hout g Hg)|].
      destruct (HI Hg) as (w' & i' & ? & ? & ?); exists w', i'; split; [right|]; auto. }
    destruct e as [e|]; [destruct b|].
    + intros Hg; exact (Hrest true Hg (IH _ _)).
    + cbn [fst]; apply Hout.
    + intros Hg; exact (Hrest b Hg (IH _ _)).
Qed.

Lemma Satorter_init_ok W length nm S :
  Satorter_init W length nm = Ok S -> sw S = W /\ near_miss S = nm /\ s_len S <> 0%nat.
Proof.
  unfold Satorter_init; destruct (if len_falsy (wl_length W) then length else wl_length W) as [n|]; [|discriminate].
  destruct (Nat.eqb_spec n 0); [discriminate|]; injection 1 as <-; cbn; auto.
Qed.

Lemma middle_pos_range (L : nat) : L <> 0%nat -> (2 * middle_pos L + 1 <= L <= 2 * middle_pos L + 2)%nat.
Proof.
  intros HL; unfold middle_pos.
  pose proof (Nat.div_mod_eq (L + 1) 2); pose proof (Nat.mod_upper_bound (L + 1) 2 ltac:(lia)); lia.
Qed.

Lemma generator_band (S : Satorter) frames b g :
  wl_ok (sw S) -> s_len S <> 0%nat -> In g (fst (generator S frames b)) ->
  exists q, (q = 0 \/ q <= near_miss S)%nat /\ band_ok (wl_heap (sw S)) (s_len S) g q.
Proof.
  intros Hok HL Hg; unfold generator in Hg.
  destruct (gen_loop_in _ _ _ _ _ _ _ Hg) as (w & i' & Hw & Hsym & Hgi).
  apply List.filter_In in Hw as [_ Hf].
  destruct (wl_heap (sw S) !! w) as [x|] eqn:Ex; [|discriminate].
  apply andb_true_iff in Hf as [Hl _]; apply Nat.eqb_eq in Hl.
  pose proof (middle_pos_range _ HL) as Hm.
  destruct (iter_band S frames [i'] w (middle_pos (s_len S)) (Sator_new [] (s_len S)) g (deaccented x))
    as (q & _ & Hq & Hb); try assumption.
  - lia.
  - split; [reflexivity|split; [apply repeat_length|]].
    intros i Hi; split; [lia|intros _; apply lookup_repeat_lt; exact Hi].
  - unfold deacc_of; rewrite Ex; reflexivity.
  - intros E; destruct Hsym as (x' & Ex' & Hs); [rewrite <- E; apply Nat.odd_odd|].
    injection Ex' as <-; unfold is_symmetrical in Hs.
    apply str_eqb_eq in Hs; symmetry; exact Hs.
  - exists q; auto.
Qed.

Lemma list_lookup_map {A B} (f : A -> B) (l : list A) i : map f l !! i = option_map f (l !! i).
Proof. revert i; induction l as [|a l IH]; intros [|i]; cbn; auto. Qed.

Lemma py_index_out (n : nat) (i : Z) : (i < - Z.of_nat n \/ Z.of_nat n <= i)%Z -> py_index n i = None.
Proof.
  intros Hi; unfold py_index.
  destruct (Z.leb_spec 0 i), (Z.ltb_spec i (Z.of_nat n)), (Z.leb_spec (- Z.of_nat n) i), (Z.ltb_spec i 0);
    cbn; try reflexivity; lia.
Qed.

(** ** Extra properties *)

(** X1: after [WordsList(words, length)], [l_and_p[(c, z)]] holds exactly
    the indexed deaccented forms whose letter at position [z] is [c]. *)
Theorem l_and_p_exact (ws : list str) (len : option nat) (c : char) (z : Z) (item : str) :
  (exists items, dict_get lp_key_eqb (l_and_p (WordsList_init ws len)) (c, z) = Some items /\ In item items) <->
  (exists r, dict_get str_eqb (words (WordsList_init ws len)) item = Some r) /\
  (exists j, z = Z.of_nat j /\ nth_error item j = Some c).
Proof.
  pose proof (setup_lp len (filtered_words ws len) c z item) as H; unfold lp_has in H.
  unfold WordsList_init; rewrite H, setup_words_keys; reflexivity.
Qed.

(** X2: [word_for_letters_in_position(letters, position, length)] with a
    non-empty [letters] yields every indexed word that has [letters] at
    [position] (and the requested non-zero length, when one is given). *)
Theorem word_for_letters_in_position_complete (ws : list str) (len : option nat) (letters : str)
    (position : nat) (larg : option nat) (k : str) (r : nat) :
  letters <> [] ->
  dict_get str_eqb (words (WordsList_init ws len)) k = Some r ->
  slice k position (position + List.length letters) = letters ->
  (forall n, larg = Some n -> n <> 0%nat -> List.length k = n) ->
  In r (fst (word_for_letters_in_position (WordsList_init ws len) letters position larg)).
Proof.
  intros Hne Hkr Hsl Hlen; destruct letters as [|l0 rest]; [contradiction|].
  pose proof (slice_head _ _ _ _ Hsl) as Hp.
  assert (Hlp : lp_has (l_and_p (WordsList_init ws len)) (l0, Z.of_nat position) k).
  { unfold WordsList_init in *; apply setup_lp; split; [apply (proj1 (setup_words_keys len _ _)); eauto|eauto]. }
  destruct Hlp as (items & Hi & Hk).
  pose proof (wl_ok_init ws len) as Hok.
  unfold word_for_letters_in_position; rewrite Hi.
  apply (wfl_loop_complete _ _ _ _ _ k); auto.
  intros item Hin; exact (wl_index _ Hok _ _ _ Hi Hin).
Qed.

Lemma word_for_letters_in_position_complete_witness :
  lit "b" <> [] /\
  dict_get str_eqb (words (WordsList_init pair_words (Some 2%nat))) (lit "ab") = Some 0%nat /\
  slice (lit "ab") 1 (1 + List.length (lit "b")) = lit "b" /\
  In 0%nat (fst (word_for_letters_in_position (WordsList_init pair_words (Some 2%nat)) (lit "b") 1 (Some 2%nat))).
Proof.
  assert (H1 : lit "b" <> []) by discriminate.
  assert (H2 : dict_get str_eqb (words (WordsList_init pair_words (Some 2%nat))) (lit "ab") = Some 0%nat)
    by (vm_compute; reflexivity).
  assert (H3 : slice (lit "ab") 1 (1 + List.length (lit "b")) = lit "b") by (vm_compute; reflexivity).
  split; [exact H1|split; [exact H2|split; [exact H3|]]].
  apply (word_for_letters_in_position_complete _ _ _ _ _ _ _ H1 H2 H3).
  intros n [= <-] _; reflexivity.
Defined.

(** X3: after [setup], an indexed word with a non-empty deaccented form
    [k] has a reverse partner iff [invert(k)] is indexed too. *)
Theorem indexed_word_partner_iff (ws : list str) (len : option nat) (k : str) (r : nat) :
  dict_get str_eqb (words (WordsList_init ws len)) k = Some r -> k <> [] ->
  (inv_of (wl_heap (WordsList_init ws len)) r <> None <->
   exists r', dict_get str_eqb (words (WordsList_init ws len)) (invert k) = Some r').
Proof. apply partner_iff_reverse_key. Qed.

Definition abcd_words : list str := map lit ["ab"; "ba"; "cd"]%string.

Lemma indexed_word_partner_iff_witness :
  dict_get str_eqb (words (WordsList_init abcd_words (Some 2%nat))) (lit "cd") = Some 2%nat /\
  lit "cd" <> [] /\
  (inv_of (wl_heap (WordsList_init abcd_words (Some 2%nat))) 2 <> None <->
   exists r', dict_get str_eqb (words (WordsList_init abcd_words (Some 2%nat))) (invert (lit "cd")) = Some r').
Proof.
  assert (H1 : dict_get str_eqb (words (WordsList_init abcd_words (Some 2%nat))) (lit "cd") = Some 2%nat)
    by (vm_compute; reflexivity).
  assert (H2 : lit "cd" <> []) by discriminate.
  split; [exact H1|split; [exact H2|exact (indexed_word_partner_iff _ _ _ _ H1 H2)]].
Defined.

(** X4: for [n >= 1], [iter_for_length(n)] yields exactly the indexed
    words of length [n] whose reversed deaccented form is indexed too. *)
Theorem iter_for_length_exact (ws : list str) (len : option nat) (n r : nat) :
  n <> 0%nat ->
  (In r (iter_for_length (WordsList_init ws len) n) <->
   exists k, dict_get str_eqb (words (WordsList_init ws len)) k = Some r /\ List.length k = n /\
     exists r', dict_get str_eqb (words (WordsList_init ws len)) (invert k) = Some r').
Proof.
  intros Hn; pose proof (wl_ok_init ws len) as Hok.
  assert (Hnd : NoDup (map fst (words (WordsList_init ws len)))) by apply setup_words_nodup.
  unfold iter_for_length; rewrite List.filter_In, in_map_iff; split.
  - intros [([k r0] & <- & Hin) Hf]; cbn [snd] in *.
    pose proof (In_dict_get _ str_eqb_eq _ _ _ Hnd Hin) as Hkr.
    destruct (deacc_of_some _ _ _ (wl_keys _ Hok _ _ Hkr)) as (w & Hw & Ew).
    rewrite Hw in Hf; apply andb_true_iff in Hf as [Hl Hi]; apply Nat.eqb_eq in Hl; rewrite Ew in Hl.
    apply bool_decide_eq_true in Hi.
    exists k; split; [exact Hkr|split; [congruence|]].
    apply (partner_iff_reverse_key _ _ _ _ Hkr); [intros ->; cbn in Hl; lia|].
    unfold inv_of; rewrite Hw; exact Hi.
  - intros (k & Hkr & Hl & Hrev).
    destruct (deacc_of_some _ _ _ (wl_keys _ Hok _ _ Hkr)) as (w & Hw & Ew).
    split; [exists (k, r); split; [reflexivity|exact (dict_get_In _ str_eqb_eq _ _ _ Hkr)]|].
    rewrite Hw; apply andb_true_iff; split; [apply Nat.eqb_eq; congruence|].
    apply bool_decide_eq_true.
    pose proof (proj2 (partner_iff_reverse_key _ _ _ _ Hkr ltac:(intros ->; cbn in Hl; lia)) Hrev) as Hi.
    unfold inv_of in Hi; rewrite Hw in Hi; exact Hi.
Qed.

Lemma iter_for_length_exact_witness :
  (2 <> 0)%nat /\
  iter_for_length (WordsList_init abcd_words (Some 2%nat)) 2 = [0%nat; 1%nat] /\
  dict_get str_eqb (words (WordsList_init abcd_words (Some 2%nat))) (lit "cd") = Some 2%nat /\
  (In 2%nat (iter_for_length (WordsList_init abcd_words (Some 2%nat)) 2) <->
   exists k, dict_get str_eqb (words (WordsList_init abcd_words (Some 2%nat))) k = Some 2%nat /\
     List.length k = 2%nat /\
     exists r', dict_get str_eqb (words (WordsList_init abcd_words (Some 2%nat))) (invert k) = Some r').
Proof.
  split; [lia|split; [vm_compute; reflexivity|split; [vm_compute; reflexivity|]]].
  apply iter_for_length_exact; lia.
Defined.

(** X5: [WordsList.setup] builds one [Word] per word of [_words], in order
    ([original] the word, [deaccented] its normal form); [words[k]] is the
    object of the last word of [_words] whose normal form is [k]. *)
Theorem setup_heap_and_last_word (ws : list str) (len : option nat) :
  (forall r s, filtered_words ws len !! r = Some s ->
     exists w, wl_heap (WordsList_init ws len) !! r = Some w /\ original w = s /\ deaccented w = deaccent s) /\
  (forall k r, dict_get str_eqb (words (WordsList_init ws len)) k = Some r <->
     (exists s, filtered_words ws len !! r = Some s /\ deaccent s = k) /\
     (forall j s', (r < j)%nat -> filtered_words ws len !! j = Some s' -> deaccent s' <> k)).
Proof.
  split.
  - intros r s Hs; pose proof (setup_heap len (filtered_words ws len)) as H.
    apply (f_equal (fun l => l !! r)) in H; rewrite !list_lookup_map, Hs in H.
    unfold WordsList_init; destruct (wl_heap _ !! r) as [w|]; cbn in H; [|discriminate].
    unfold wproj in H; injection H as E1 E2; exists w; auto.
  - intros k r; apply setup_words_last.
Qed.

(** X6: the deaccented forms indexed by [WordsList(words, length)] are
    those of the words of the list, restricted to [len(w) == length] when
    [length] is a non-zero number. *)
Theorem indexed_forms (ws : list str) (len : option nat) (k : str) :
  (exists r, dict_get str_eqb (words (WordsList_init ws len)) k = Some r) <->
  exists s, In s ws /\ (len_falsy len = true \/ len = Some (List.length s)) /\ deaccent s = k.
Proof.
  unfold WordsList_init; rewrite setup_words_keys; split.
  - intros (s & Hs & Hd); apply filtered_words_In in Hs as [Hs Hl]; eauto.
  - intros (s & Hs & Hl & Hd); exists s; split; [apply filtered_words_In; auto|exact Hd].
Qed.

(** X7: [Sator.__setitem__] raises [AttributeError] on [None], fails its
    assertion when the word has no non-empty reverse partner, and raises
    [IndexError] for any position outside [0 .. length-1]: a negative
    position passes the first write but its mirror index is out of range. *)
Theorem sator_setitem_errors (h : heap) (s : Sator) (pos : Z) :
  sator_setitem h s pos None = Err AttributeError /\
  (forall r w, h !! r = Some w -> truthy h (inverted w) = false ->
     sator_setitem h s pos (Some r) = Err AssertionError) /\
  (forall r w, h !! r = Some w -> truthy h (inverted w) = true -> List.length (content s) = slength s ->
     (pos < 0 \/ Z.of_nat (slength s) <= pos)%Z -> sator_setitem h s pos (Some r) = Err IndexError).
Proof.
  split; [reflexivity|split].
  - intros r w Hr Ht; unfold sator_setitem; rewrite Hr, Ht; reflexivity.
  - intros r w Hr Ht Hlen Hpos; unfold sator_setitem; rewrite Hr, Ht; cbn [negb].
    unfold py_setitem at 1; rewrite Hlen.
    destruct (py_index (slength s) pos) as [k|] eqn:Ep; [|reflexivity].
    assert (Hneg : (- Z.of_nat (slength s) <= pos < 0)%Z).
    { destruct (Z_lt_le_dec pos (- Z.of_nat (slength s))) as [Hl|Hl];
        [rewrite py_index_out in Ep by lia; discriminate|].
      destruct Hpos as [Hp|Hp]; [lia|rewrite py_index_out in Ep by lia; discriminate]. }
    destruct (Z.eqb_spec (2 * pos + 1) (Z.of_nat (slength s))) as [E|E]; [lia|]; cbn [negb].
    unfold py_setitem; rewrite length_insert, Hlen, py_index_out by lia; reflexivity.
Qed.

(** X8: every grid yielded by [Satorter(WordsList(...), ...).generator()]
    is a square of side [self.length] filled on a band of rows [q ..
    length-1-q] around the middle, where [q = 0] or [q <= near_miss]: each
    of those rows holds a word of that length and row [length-1-i] holds
    the reversal of row [i]; all other rows are [None]. *)
Theorem generator_grids_band (ws : list str) (wlen length : option nat) (nm : nat) (S : Satorter)
    (frames : nat) (b : bool) (g : Sator) :
  Satorter_init (WordsList_init ws wlen) length nm = Ok S ->
  In g (fst (generator S frames b)) ->
  exists q, (q = 0 \/ q <= nm)%nat /\ band_ok (wl_heap (sw S)) (s_len S) g q.
Proof.
  intros Hi Hg; destruct (Satorter_init_ok _ _ _ _ Hi) as (Hw & Hnm & HL).
  destruct (generator_band S frames b g) as (q & Hq & Hb); [rewrite Hw; apply wl_ok_init|exact HL|exact Hg|].
  exists q; rewrite <- Hnm; auto.
Qed.

Lemma generator_grids_band_witness :
  Satorter_init (WordsList_init quad_words (Some 4%nat)) None 1
    = Ok (mkSatorter (WordsList_init quad_words (Some 4%nat)) 1 4) /\
  In (mkSator [2%nat] 4 [None; Some 3%nat; Some 2%nat; None])
    (fst (generator (mkSatorter (WordsList_init quad_words (Some 4%nat)) 1 4) default_frames false)) /\
  exists q, (q = 0 \/ q <= 1)%nat /\
    band_ok (wl_heap (WordsList_init quad_words (Some 4%nat))) 4 (mkSator [2%nat] 4 [None; Some 3%nat; Some 2%nat; None]) q.
Proof.
  assert (H1 : Satorter_init (WordsList_init quad_words (Some 4%nat)) None 1
               = Ok (mkSatorter (WordsList_init quad_words (Some 4%nat)) 1 4)) by (vm_compute; reflexivity).
  assert (H2 : In (mkSator [2%nat] 4 [None; Some 3%nat; Some 2%nat; None])
                 (fst (generator (mkSatorter (WordsList_init quad_words (Some 4%nat)) 1 4) default_frames false)))
    by (vm_compute; right; right; left; reflexivity).
  split; [exact H1|split; [exact H2|]].
  exact (generator_grids_band _ _ _ _ _ _ _ _ H1 H2).
Defined.

(** X9: with [near_miss = 0] every grid yielded by the generator is full:
    each of its [length] rows holds a word of normalised length [length],
    and row [length-1-i] holds the reversal of row [i]. *)
Theorem generator_full_grids_without_near_miss (ws : list str) (wlen length : option nat) (S : Satorter)
    (frames : nat) (b : bool) (g : Sator) :
  Satorter_init (WordsList_init ws wlen) length 0 = Ok S ->
  In g (fst (generator S frames b)) ->
  slength g = s_len S /\ List.length (content g) = s_len S /\
  forall i, (i < s_len S)%nat ->
    exists r d r', content g !! i = Some (Some r) /\ deacc_of (wl_heap (sw S)) r = Some d /\
      List.length d = s_len S /\
      content g !! (s_len S - 1 - i)%nat = Some (Some r') /\ deacc_of (wl_heap (sw S)) r' = Some (invert d).
Proof.
  intros Hi Hg; destruct (Satorter_init_ok _ _ _ _ Hi) as (Hw & Hnm & HL).
  destruct (generator_band S frames b g) as (q & Hq & Hsl & Hlen & Hb); [rewrite Hw; apply wl_ok_init|exact HL|exact Hg|].
  assert (q = 0%nat) as -> by lia.
  split; [exact Hsl|split; [exact Hlen|]].
  intros i Hi'; apply (proj1 (Hb i Hi')); lia.
Qed.

Lemma generator_full_grids_without_near_miss_witness :
  Satorter_init (WordsList_init quad_words (Some 4%nat)) None 0
    = Ok (mkSatorter (WordsList_init quad_words (Some 4%nat)) 0 4) /\
  In (mkSator [0%nat; 0%nat] 4 [Some 3%nat; Some 1%nat; Some 0%nat; Some 2%nat])
    (fst (generator (mkSatorter (WordsList_init quad_words (Some 4%nat)) 0 4) default_frames false)) /\
  (exists r d r', [Some 3%nat; Some 1%nat; Some 0%nat; Some 2%nat] !! 0%nat = Some (Some r) /\
     deacc_of (wl_heap (WordsList_init quad_words (Some 4%nat))) r = Some d /\ List.length d = 4%nat /\
     [Some 3%nat; Some 1%nat; Some 0%nat; Some 2%nat] !! 3%nat = Some (Some r') /\
     deacc_of (wl_heap (WordsList_init quad_words (Some 4%nat))) r' = Some (invert d)).
Proof.
  assert (H1 : Satorter_init (WordsList_init quad_words (Some 4%nat)) None 0
               = Ok (mkSatorter (WordsList_init quad_words (Some 4%nat)) 0 4)) by (vm_compute; reflexivity).
  assert (H2 : In (mkSator [0%nat; 0%nat] 4 [Some 3%nat; Some 1%nat; Some 0%nat; Some 2%nat])
                 (fst (generator (mkSatorter (WordsList_init quad_words (Some 4%nat)) 0 4) default_frames false)))
    by (vm_compute; left; reflexivity).
  split; [exact H1|split; [exact H2|]].
  destruct (generator_full_grids_without_near_miss _ _ _ _ _ _ _ H1 H2) as (_ & _ & Hb).
  exact (Hb 0%nat ltac:(cbn; lia)).
Defined.

(** X10: [Sator.__hash__] depends only on which words the grid holds:
    permuting the slots, or dropping an empty slot, keeps the hash. *)
Theorem sator_hash_key_content (h : heap) :
  (forall g1 g2, Permutation (content g1) (content g2) -> sator_hash_key h g1 = sator_hash_key h g2) /\
  (forall i1 i2 L1 L2 c1 c2,
     sator_hash_key h (mkSator i1 L1 (c1 ++ None :: c2)) = sator_hash_key h (mkSator i2 L2 (c1 ++ c2))).
Proof.
  split.
  - intros g1 g2 Hp; unfold sator_hash_key; rewrite !map_original_sort_words.
    apply sorted_strs_Permutation, Permutation_map; unfold truthy_words; rewrite Hp; reflexivity.
  - intros; unfold sator_hash_key; cbn [content]; rewrite truthy_words_app_none; reflexivity.
Qed.

(** X11: the generator never yields the same [Sator] object twice. *)
Theorem generator_never_repeats (S : Satorter) (frames : nat) (b : bool) :
  NoDup (map sid (fst (generator S frames b))).
Proof. apply gen_loop_nodup. Qed.

(** X12: [deaccent] commutes with [invert]. *)
Theorem deaccent_invert_comm (s : str) : deaccent (invert s) = invert (deaccent s).
Proof. rewrite !deaccent_map; unfold invert; apply map_rev. Qed.
